(** * OptionsParser: a shallow embedding of [src/OptionsParser.mjs]

    The class [OptionsParser] populates a nested configuration object from a
    YAML file, from environment variables and from command-line arguments,
    and then checks that no option is left empty.

    Modelling decisions, in one place:
    - JavaScript strings are [string]s of 8-bit characters.  On ASCII text
      [toUpperCase], [length] and indexing are computed; on other text they
      are asked of the engine.
    - A JavaScript object is an association list of its own enumerable
      properties in enumeration order: the names that are array indices
      first, in ascending numeric order, then the other names in insertion
      order.  Reading a property takes the first binding; writing replaces
      it in place, or inserts a new binding where this order puts it.
    - What a value does not have as an own property is looked up in the
      engine (the [realm]): the prototypes of plain objects and of
      primitives, and the objects reachable from them.  The realm is fixed
      over a run: it says what such an object answers to a read and whether
      it takes a write, and the model does not follow what a write into an
      engine object changes.  A write on an object of the configuration or
      on the flattened view defines or replaces an own property.
    - [undefined] is [None] in [option value].
    - The module is an ES module, so it runs in strict mode: assigning a
      property on a primitive raises a [TypeError] unless an inherited
      setter takes the write, as does any property access on [undefined].
      A getter of the engine that throws is read as [undefined]: every read
      of the walk is followed by another access on the value read, which
      then raises the same [TypeError].
    - An instance is a record; methods are computations in a state and
      exception monad over the instance and the host (console, journal of
      the host calls made).
    - The configuration is a tree: no object is reachable along two
      paths.
    - The host ([yaml.readSync], [process.env], the parsed argument vector)
      is an explicit [world] argument.  The imported [flatten] and
      [argparse] are modelled from their description; [argparse] refuses an
      option string that is declared already. *)

From Stdlib Require Import List String Ascii Bool ZArith NArith Lia.
From Stdlib Require Import DecimalString.
Import ListNotations.
Local Open Scope string_scope.
Local Open Scope list_scope.

Set Implicit Arguments.

(** ** Strings *)

Module Str.

(** [s.split(c)] for a one-character separator. *)
Fixpoint split (sep : ascii) (s : string) : list string :=
  match s with
  | EmptyString => [EmptyString]
  | String c rest =>
      if Ascii.eqb c sep then EmptyString :: split sep rest
      else match split sep rest with
           | [] => [String c EmptyString]
           | seg :: segs => String c seg :: segs
           end
  end.

(** [arr.join(c)]. *)
Definition join (sep : string) (segs : list string) : string :=
  String.concat sep segs.

(** [s.replace(/\./g, '_')]. *)
Fixpoint replace_all (from to : ascii) (s : string) : string :=
  match s with
  | EmptyString => EmptyString
  | String c rest =>
      String (if Ascii.eqb c from then to else c) (replace_all from to rest)
  end.

Definition upper_ascii (c : ascii) : ascii :=
  let n := nat_of_ascii c in
  if (97 <=? n)%nat && (n <=? 122)%nat then ascii_of_nat (n - 32) else c.

(** [s.toUpperCase()] for a string of ASCII characters. *)
Fixpoint ascii_upper (s : string) : string :=
  match s with
  | EmptyString => EmptyString
  | String c rest => String (upper_ascii c) (ascii_upper rest)
  end.

(** The characters of a string, each as a string. *)
Fixpoint characters (s : string) : list string :=
  match s with
  | EmptyString => []
  | String c rest => String c EmptyString :: characters rest
  end.

(** Every character of the string is an ASCII one. *)
Fixpoint is_ascii (s : string) : bool :=
  match s with
  | EmptyString => true
  | String c rest => (nat_of_ascii c <? 128)%nat && is_ascii rest
  end.

(** The number a property name denotes, if it is a canonical numeric
    string ("0", "1", "12", but not "01", "" or "+1"). *)
Definition canonical_index (s : string) : option N :=
  match NilEmpty.uint_of_string s with
  | Some u =>
      let n := N.of_uint u in
      if String.eqb (NilEmpty.string_of_uint (N.to_uint n)) s
      then Some n else None
  | None => None
  end.

(** The array index a property name denotes: a canonical numeric string
    below 2^32 - 1. *)
Definition array_index (s : string) : option N :=
  match canonical_index s with
  | Some n => if (n <? 4294967295)%N then Some n else None
  | None => None
  end.

End Str.

(** [arr.slice(0, -1)] and [arr.slice(-1)]. *)
Definition slice_init {A} (l : list A) : list A := removelast l.

Definition slice_last {A} (l : list A) : list A :=
  match rev l with
  | [] => []
  | x :: _ => [x]
  end.

(** ** Values and objects *)

(** The values a run meets: strings, numbers, booleans, the plain objects
    of the configuration, and [VEngine b], an object of the engine (a
    built-in constructor, a prototype, a function) known by its name. *)
#[warnings="-register-all"]
Inductive value : Type :=
| VStr (s : string)
| VNum (n : Z)
| VBool (b : bool)
| VObj (fields : list (string * value))
| VEngine (builtin : string).

Definition obj := list (string * value).

(** The empty string marks an option that no source has set. *)
Definition unset : value := VStr "".

Definition is_object (v : value) : bool :=
  match v with VObj _ => true | _ => false end.

(** [v === ''] *)
Definition is_empty_string (v : value) : bool :=
  match v with
  | VStr s => String.eqb s ""
  | _ => false
  end.

Module Obj.

(** The own property [k] of an object, or [undefined]. *)
Fixpoint get (o : obj) (k : string) : option value :=
  match o with
  | [] => None
  | (k', v) :: rest => if String.eqb k' k then Some v else get rest k
  end.

(** [o.hasOwnProperty(k)] *)
Definition has (o : obj) (k : string) : bool :=
  match get o k with
  | Some _ => true
  | None => false
  end.

(** The enumeration order puts a new name [k] before the name [k'] that is
    there already: [k] is an array index, and [k'] is a larger one or not
    an array index at all. *)
Definition comes_before (k k' : string) : bool :=
  match Str.array_index k, Str.array_index k' with
  | Some i, Some i' => (i <? i')%N
  | Some _, None => true
  | None, _ => false
  end.

(** [o[k] = v] where [k] is an own property. *)
Fixpoint replace (o : obj) (k : string) (v : value) : obj :=
  match o with
  | [] => []
  | (k', v') :: rest =>
      if String.eqb k' k then (k', v) :: rest else (k', v') :: replace rest k v
  end.

(** [o[k] = v] where [k] is a new property. *)
Fixpoint insert (o : obj) (k : string) (v : value) : obj :=
  match o with
  | [] => [(k, v)]
  | (k', v') :: rest =>
      if comes_before k k' then (k, v) :: (k', v') :: rest
      else (k', v') :: insert rest k v
  end.

(** [o[k] = v] on an object. *)
Definition set (o : obj) (k : string) (v : value) : obj :=
  if has o k then replace o k v else insert o k v.

(** [Object.keys(o)], [Object.entries(o)]. *)
Definition keys (o : obj) : list string := map fst o.
Definition entries (o : obj) : list (string * value) := o.

(** The object built by assigning the entries in order. *)
Definition of_entries (es : list (string * value)) : obj :=
  fold_left (fun acc e => set acc (fst e) (snd e)) es [].

End Obj.

(** ** Flattening (imported from [vph_js_utils]) *)

(** The leaves of a tree with the path of property names that leads to
    each, in traversal order. *)
Fixpoint leaves_from (path : list string) (v : value)
  : list (list string * value) :=
  match v with
  | VObj fields =>
      (fix over (fs : list (string * value)) : list (list string * value) :=
         match fs with
         | [] => []
         | (k, child) :: rest => leaves_from (path ++ [k]) child ++ over rest
         end) fields
  | leaf => [(path, leaf)]
  end.

Definition leaves (o : obj) : list (list string * value) :=
  leaves_from [] (VObj o).

(** The dotted paths of the leaves of a configuration tree. *)
Definition leaf_paths (o : obj) : list string :=
  map (fun e => Str.join "." (fst e)) (leaves o).

(** Modelled from the spec: [flatten] is imported from the package
    [vph_js_utils], which is not part of the sources.  Per the spec's
    PathFlattener: for every leaf reachable from the tree, one entry keyed
    by the dot-joined path from the root to that leaf; mapping-valued nodes
    are never emitted; enumeration is in traversal order.  The result is a
    fresh object, so two leaves with the same dotted path share one key. *)
Definition flatten (o : obj) : obj :=
  Obj.of_entries (map (fun e => (Str.join "." (fst e), snd e)) (leaves o)).

(** ** The engine *)

(** The kind of value a property is looked up on or written to, when the
    value does not have it as an own property. *)
Inductive holder : Type :=
| OfObject
| OfString (s : string)
| OfNumber
| OfBoolean
| OfEngine (builtin : string).

Definition holder_of (v : value) : holder :=
  match v with
  | VObj _ => OfObject
  | VStr s => OfString s
  | VNum _ => OfNumber
  | VBool _ => OfBoolean
  | VEngine b => OfEngine b
  end.

(** The engine a run happens in.
    - [inherited h k] is what [x[k]] yields on a value [x] of kind [h] that
      has no own property [k]: what the prototype chain of [x] holds there
      ([Object] for [constructor] on a plain object, say), or [None] for
      [undefined].  For an object of the engine it answers for every
      property.
    - [accepts h k] tells whether the assignment [x[k] = v] on a primitive
      or on an engine object of kind [h] completes (the object stores the
      value, or an inherited setter takes it) rather than throws.
    - [upper_case s] is [s.toUpperCase()], and [code_units s] the
      characters of [s] as the engine counts them, each as a string; the
      model asks for them on text that is not ASCII. *)
Class realm : Type := Realm {
  inherited : holder -> string -> option value;
  accepts : holder -> string -> bool;
  upper_case : string -> string;
  code_units : string -> list string
}.

(** ** The host *)

(** What a [throw] carries.  [TypeError] is what the engine raises on a
    property access on [undefined] and on a property write to a primitive;
    it is the failure the specification calls a lookup error.
    [HostError] stands for whatever [yaml.readSync] raises on a missing,
    unreadable or malformed file, [ArgumentError] for what
    [parser.addArgument] raises on an option string that is declared
    already. *)
Inductive exn : Type :=
| TypeError
| HostError (msg : string)
| ArgumentError (option_string : string).

(** The three outcomes of [yaml.readSync(path)]. *)
Inductive read_result : Type :=
| ReadThrows (e : exn)
| ReadUndefined
| ReadDocument (doc : obj).

Record world : Type := World {
  yaml_readSync : string -> read_result;
  (** [process.env[name]] *)
  process_env : string -> option string;
  (** the value the argument vector gives to an option string, if any *)
  process_argv : string -> option string
}.

(** What [console.warn] is called with. *)
Inductive warning : Type :=
| WarnExn (e : exn)
| WarnText (s : string).

(** The journal of what a run does to the host and to the store. *)
Inductive event : Type :=
| EvReadSync (path : string)
| EvGetEnv (name : string)
| EvParseArgs (flags : list string)
| EvWarn (w : warning)
| EvSet (flattened_key : string) (v : value).

(** ** Instances and the method monad *)

Record instance : Type := Instance {
  _config : obj;
  _flattened_config : option obj;
  env_prefix : string;
  config_help : obj;
  config_file_path : string
}.

Definition constructor (config : obj) (prefix : string) (help : obj)
  (path : string) : instance :=
  {| _config := config;
     _flattened_config := None;
     env_prefix := prefix;
     config_help := help;
     config_file_path := path |}.

Record machine : Type := Machine {
  this : instance;
  journal : list event
}.

Definition boot (i : instance) : machine :=
  {| this := i; journal := [] |}.

Inductive completion (A : Type) : Type :=
| Normal (a : A)
| Throw (e : exn).
Arguments Normal {A} a.
Arguments Throw {A} e.

Definition js (A : Type) : Type := machine -> completion A * machine.

Definition ret {A} (a : A) : js A := fun m => (Normal a, m).

Definition bind {A B} (c : js A) (k : A -> js B) : js B :=
  fun m =>
    match c m with
    | (Normal a, m') => k a m'
    | (Throw e, m') => (Throw e, m')
    end.

Definition throw {A} (e : exn) : js A := fun m => (Throw e, m).

(** [try { body } catch (e) { handler(e) }] *)
Definition try_catch {A} (body : js A) (handler : exn -> js A) : js A :=
  fun m =>
    match body m with
    | (Normal a, m') => (Normal a, m')
    | (Throw e, m') => handler e m'
    end.

Declare Scope js_scope.
Delimit Scope js_scope with js.
Notation "x <- c ;; k" := (bind c (fun x => k))
  (at level 61, c at next level, right associativity) : js_scope.
Notation "c ;;; k" := (bind c (fun _ => k))
  (at level 61, right associativity) : js_scope.
Local Open Scope js_scope.

(** [for (const x of xs) body(x)] over a snapshot [xs]. *)
Fixpoint for_of {A} (xs : list A) (body : A -> js unit) : js unit :=
  match xs with
  | [] => ret tt
  | x :: rest => body x ;;; for_of rest body
  end.

Definition emit (e : event) : js unit :=
  fun m => (Normal tt, {| this := this m; journal := journal m ++ [e] |}).

Definition console_warn (w : warning) : js unit := emit (EvWarn w).

Definition get_config : js obj := fun m => (Normal (_config (this m)), m).

Definition put_config (c : obj) : js unit :=
  fun m =>
    (Normal tt,
     {| this := {| _config := c;
                   _flattened_config := _flattened_config (this m);
                   env_prefix := env_prefix (this m);
                   config_help := config_help (this m);
                   config_file_path := config_file_path (this m) |};
        journal := journal m |}).

Definition put_flattened (f : option obj) : js unit :=
  fun m =>
    (Normal tt,
     {| this := {| _config := _config (this m);
                   _flattened_config := f;
                   env_prefix := env_prefix (this m);
                   config_help := config_help (this m);
                   config_file_path := config_file_path (this m) |};
        journal := journal m |}).

(** ** Example data *)

Module Sample.

Definition schema : obj :=
  [("db", VObj [("host", unset); ("port", unset)])].

Definition fresh : machine :=
  boot (constructor schema "APP" [] "./config.yaml").

Definition no_file : string -> read_result :=
  fun _ => ReadThrows (HostError "ENOENT").

Definition nothing : string -> option string := fun _ => None.

Definition only (name v : string) : string -> option string :=
  fun n => if String.eqb n name then Some v else None.

(** No file, no variable, no argument. *)
Definition bare : world :=
  {| yaml_readSync := no_file;
     process_env := nothing;
     process_argv := nothing |}.

(** A file that parses to nothing. *)
Definition empty_file : world :=
  {| yaml_readSync := fun _ => ReadUndefined;
     process_env := nothing;
     process_argv := nothing |}.

(** The file has an option the configuration does not know. *)
Definition stray_file : world :=
  {| yaml_readSync := fun _ => ReadDocument [("verbose", VBool true)];
     process_env := nothing;
     process_argv := nothing |}.



(** A configuration whose only option has a dot in its name. *)
Definition dotted_option : machine :=
  boot (constructor [("a.b", unset)] "APP" [] "./config.yaml").

(** The environment defines [APP_A_B]. *)
Definition dotted_env : world :=
  {| yaml_readSync := no_file;
     process_env := only "APP_A_B" "v";
     process_argv := nothing |}.

(** The argument vector sets [--db_host]. *)
Definition host_argument : world :=
  {| yaml_readSync := no_file;
     process_env := nothing;
     process_argv := only "--db_host" "example.org" |}.

(** The file sets [db.port], the environment defines [APP_DB_HOST], no
    argument is given. *)
Definition nested_env : world :=
  {| yaml_readSync :=
       fun _ => ReadDocument [("db", VObj [("port", VNum 5432)])];
     process_env := only "APP_DB_HOST" "localhost";
     process_argv := nothing |}.

(** The name of the built-in constructor of a kind of value. *)
Definition builtin_of (h : holder) : string :=
  match h with
  | OfObject => "Object"
  | OfString _ => "String"
  | OfNumber => "Number"
  | OfBoolean => "Boolean"
  | OfEngine _ => "Function"
  end.

(** The methods every value inherits from [Object.prototype]. *)
Definition object_methods : list string :=
  ["toString"; "toLocaleString"; "valueOf"; "hasOwnProperty";
   "isPrototypeOf"; "propertyIsEnumerable"].

(** A small engine.  Every value inherits [constructor], [__proto__] and
    the methods of [Object.prototype], and nothing else; an engine object
    takes every write; on a primitive only the write of [__proto__]
    completes, the inherited setter ignoring it.  Only ASCII letters have
    capitals, and every 8-bit character counts as one. *)
Definition engine : realm :=
  {| inherited :=
       fun h k =>
         if String.eqb k "constructor" then Some (VEngine (builtin_of h))
         else if String.eqb k "__proto__"
         then Some (VEngine (builtin_of h ++ ".prototype"))
         else if existsb (String.eqb k) object_methods
         then Some (VEngine "Function")
         else None;
     accepts :=
       fun h k =>
         match h with
         | OfEngine _ => true
         | _ => String.eqb k "__proto__"
         end;
     upper_case := Str.ascii_upper;
     code_units := Str.characters |}.

End Sample.

(** More example data. *)
Module More.

(** The environment defines [APP_DB], as the empty string. *)
Definition section_env : world :=
  {| yaml_readSync := Sample.no_file;
     process_env := Sample.only "APP_DB" "";
     process_argv := Sample.nothing |}.

(** A configuration with top-level options only. *)
Definition flat_schema : machine :=
  boot (constructor [("host", unset); ("port", unset)] "APP" []
          "./config.yaml").

(** The file sets both options, the environment [APP_HOST], the argument
    vector [--host]. *)
Definition all_sources : world :=
  {| yaml_readSync :=
       fun _ => ReadDocument [("host", VStr "file"); ("port", VNum 1)];
     process_env := Sample.only "APP_HOST" "env";
     process_argv := Sample.only "--host" "arg" |}.

(** The file sets both options, the environment [APP_HOST]. *)
Definition file_and_env : world :=
  {| yaml_readSync :=
       fun _ => ReadDocument [("host", VStr "file"); ("port", VNum 1)];
     process_env := Sample.only "APP_HOST" "env";
     process_argv := Sample.nothing |}.

(** The file gives a string where the configuration has the section
    [db]. *)
Definition section_file : world :=
  {| yaml_readSync := fun _ => ReadDocument [("db", VStr "x")];
     process_env := Sample.nothing;
     process_argv := Sample.nothing |}.

(** A configuration with the nested option [a.b] and the top-level option
    [a_b]: both get the option string [--a_b]. *)
Definition shared_flag : machine :=
  boot (constructor [("a", VObj [("b", unset)]); ("a_b", unset)] "APP" []
          "./config.yaml").

End More.

Section Engine.

Context {JS : realm}.

(** ** Property access *)

(** The characters of a string, as the engine counts them. *)
Definition characters_of (s : string) : list string :=
  if Str.is_ascii s then Str.characters s else code_units s.

(** The own properties of a string: its length and its characters. *)
Definition own_of_string (s k : string) : option value :=
  if String.eqb k "length"
  then Some (VNum (Z.of_nat (List.length (characters_of s))))
  else match Str.canonical_index k with
       | Some i =>
           match nth_error (characters_of s) (N.to_nat i) with
           | Some c => Some (VStr c)
           | None => None
           end
       | None => None
       end.

(** The own property [k] of a value: a binding of a plain object, the
    length or a character of a string.  Numbers, booleans and the objects
    of the engine have none in the model. *)
Definition own_property (v : value) (k : string) : option value :=
  match v with
  | VObj fields => Obj.get fields k
  | VStr s => own_of_string s k
  | _ => None
  end.

(** [v[k]] for a defined value [v]: the own property, or else what the
    engine has for it. *)
Definition get_prop (v : value) (k : string) : option value :=
  match own_property v k with
  | Some x => Some x
  | None => inherited (holder_of v) k
  end.

(** [target[key] = v] completes.  On a plain object it always does; an own
    property of a string is read-only; otherwise the engine decides. *)
Definition takes_write (target : value) (key : string) : bool :=
  match target with
  | VObj _ => true
  | _ =>
      match own_property target key with
      | Some _ => false
      | None => accepts (holder_of target) key
      end
  end.

(** [s.toUpperCase()] *)
Definition toUpperCase (s : string) : string :=
  if Str.is_ascii s then Str.ascii_upper s else upper_case s.

(** ** The methods of [OptionsParser] *)

(** [get flattened_config()]: the cached flattened view, computed from the
    configuration as it is at the first access. *)
Definition flattened_config : js obj :=
  fun m =>
    match _flattened_config (this m) with
    | Some f => ret f m
    | None =>
        let f := flatten (_config (this m)) in
        (put_flattened (Some f) ;;; ret f) m
    end.

(** What the getter would return, without caching it. *)
Definition flat_view (i : instance) : obj :=
  match _flattened_config i with
  | Some f => f
  | None => flatten (_config i)
  end.

(** One declared command-line option. *)
Record argument : Type := Argument {
  flag : string;
  dest : string;
  help : value
}.

(** [parser.addArgument(flag, {dest, help})], where [parser] is the list of
    the options declared so far.  A new [argparse.ArgumentParser] has the
    option [--help] already, and [addArgument] throws when the option
    string is one that is declared. *)
Definition addArgument (parser : list argument) (a : argument)
  : js (list argument) :=
  if existsb (String.eqb (flag a)) ("--help" :: map flag parser)
  then throw (ArgumentError (flag a))
  else ret (parser ++ [a]).

(** The loop of [_init_argparser] over the keys of the flattened view. *)
Fixpoint add_arguments (keys : list string) (flattened_config_help : obj)
  (parser : list argument) : js (list argument) :=
  match keys with
  | [] => ret parser
  | key :: rest =>
      parser' <- addArgument parser
                   {| flag := "--" ++ Str.replace_all "." "_" key;
                      dest := key;
                      help := match get_prop (VObj flattened_config_help) key
                              with
                              | Some h => h
                              | None => VStr ""
                              end |} ;;
      add_arguments rest flattened_config_help parser'
  end.

Definition _init_argparser : js (list argument) :=
  fun m =>
    let flattened_config_help := flatten (config_help (this m)) in
    (flat <- flattened_config ;;
     add_arguments (Obj.keys flat) flattened_config_help []) m.

(** A reference to a section of the configuration: the property names
    walked from the root, and what the walk arrived at. *)
Record section_ref : Type := SectionRef {
  ref_path : list string;
  ref_target : option value
}.

(** [config_section = config_section[path_segment]] *)
Definition step_section (section : option value) (path_segment : string)
  : completion (option value) :=
  match section with
  | None => Throw TypeError
  | Some v => Normal (get_prop v path_segment)
  end.

Fixpoint walk_section (section : option value) (segments : list string)
  : completion (option value) :=
  match segments with
  | [] => Normal section
  | path_segment :: rest =>
      match step_section section path_segment with
      | Normal next => walk_section next rest
      | Throw e => Throw e
      end
  end.

Definition _config_path (flattened_object_key : string)
  : js (section_ref * list string) :=
  let path_segments := Str.split "." flattened_object_key in
  config <- get_config ;;
  match walk_section (Some (VObj config)) (slice_init path_segments) with
  | Normal config_section =>
      ret ({| ref_path := slice_init path_segments;
              ref_target := config_section |},
           slice_last path_segments)
  | Throw e => throw e
  end.

(** The configuration tree after [section[key] = v], where [section] is
    the object reached from the root along [path].  Where [path] does not
    lead to an object of the tree, the tree is as it was. *)
Fixpoint write_at (o : obj) (path : list string) (key : string) (v : value)
  : obj :=
  match path with
  | [] => Obj.set o key v
  | p :: rest =>
      match Obj.get o p with
      | Some (VObj sub) => Obj.set o p (VObj (write_at sub rest key v))
      | _ => o
      end
  end.

(** An array used as a property name is converted with [join(',')]. *)
Definition to_property_key (key : list string) : string := Str.join "," key.

(** [config_section[key] = value] *)
Definition assign_section (config_section : section_ref) (key : list string)
  (v : value) : js unit :=
  match ref_target config_section with
  | Some (VObj _) =>
      config <- get_config ;;
      put_config (write_at config (ref_path config_section)
                    (to_property_key key) v)
  | Some target =>
      if takes_write target (to_property_key key) then ret tt
      else throw TypeError
  | None => throw TypeError
  end.

Definition _set_option (flattened_key : string) (v : value) : js unit :=
  target <- _config_path flattened_key ;;
  assign_section (fst target) (snd target) v ;;;
  flat <- flattened_config ;;
  put_flattened (Some (Obj.set flat flattened_key v)) ;;;
  emit (EvSet flattened_key v).

Definition readSync (w : world) (path : string) : js (option obj) :=
  emit (EvReadSync path) ;;;
  match yaml_readSync w path with
  | ReadThrows e => throw e
  | ReadUndefined => ret None
  | ReadDocument doc => ret (Some doc)
  end.

Definition _read_config_file (w : world) : js unit :=
  try_catch
    (fun m =>
       (file_config <- readSync w (config_file_path (this m)) ;;
        match file_config with
        | None => ret tt
        | Some doc =>
            for_of (Obj.entries (flatten doc))
              (fun entry =>
                 if is_empty_string (snd entry) then ret tt
                 else _set_option (fst entry) (snd entry))
        end) m)
    (fun msg => console_warn (WarnExn msg)).

Definition getenv (w : world) (name : string) : js (option string) :=
  emit (EvGetEnv name) ;;; ret (process_env w name).

Definition env_name (prefix flattened_key : string) : string :=
  prefix ++ "_" ++ toUpperCase (Str.replace_all "." "_" flattened_key).

Definition _read_environment (w : world) : js unit :=
  config <- get_config ;;
  for_of (Obj.keys config)
    (fun flattened_key m =>
       (value <- getenv w (env_name (env_prefix (this m)) flattened_key) ;;
        match value with
        | None => ret tt
        | Some s => _set_option flattened_key (VStr s)
        end) m).

(** Modelled from the spec: [argparse] is an imported package, not part of
    the sources.  Per the spec's ArgReader, parsing yields one entry per
    declared option, keyed by its destination, whose value is the one the
    argument vector gives to the option's flag, or [null] ([None]) when the
    flag is absent. *)
Definition parseArgs (w : world) (parser : list argument)
  : js (list (string * option string)) :=
  emit (EvParseArgs (map flag parser)) ;;;
  ret (map (fun a => (dest a, process_argv w (flag a))) parser).

Definition _read_args (w : world) : js unit :=
  parser <- _init_argparser ;;
  args <- parseArgs w parser ;;
  for_of args
    (fun entry =>
       match snd entry with
       | None => ret tt
       | Some s => _set_option (fst entry) (VStr s)
       end).

(** The loop of [_verify_config], with [config_ok] as an accumulator. *)
Fixpoint verify_entries (es : list (string * value)) (config_ok : bool)
  : js bool :=
  match es with
  | [] => ret config_ok
  | (key, v) :: rest =>
      if is_empty_string v then
        console_warn (WarnText (key ++ " is empty.")) ;;;
        verify_entries rest false
      else verify_entries rest config_ok
  end.

Definition _verify_config : js bool :=
  flat <- flattened_config ;;
  verify_entries (Obj.entries flat) true.

Definition read (w : world) : js bool :=
  _read_config_file w ;;;
  _read_environment w ;;;
  _read_args w ;;;
  _verify_config.

(** ** Vocabulary of the properties *)

(** Every name in [path], walked from [o], is an own property holding a
    mapping node. *)
Fixpoint resolves (o : obj) (path : list string) : bool :=
  match path with
  | [] => true
  | p :: rest =>
      match Obj.get o p with
      | Some (VObj sub) => resolves sub rest
      | _ => false
      end
  end.

(** What the tree holds at a path of own properties. *)
Fixpoint lookup_path (o : obj) (path : list string) : option value :=
  match path with
  | [] => Some (VObj o)
  | p :: rest =>
      match Obj.get o p with
      | Some (VObj sub) => lookup_path sub rest
      | Some leaf => match rest with [] => Some leaf | _ => None end
      | None => None
      end
  end.

(** The leaves below the fields of a mapping node found at [path]. *)
Definition leaves_fields (path : list string) (fs : obj)
  : list (list string * value) :=
  flat_map (fun kc => leaves_from (path ++ [fst kc]) (snd kc)) fs.

(** The entries of the flattened view before they are merged by key. *)
Definition dotted (e : list string * value) : string * value :=
  (Str.join "." (fst e), snd e).

(** One step of building an object from entries. *)
Definition assign (acc : obj) (e : string * value) : obj :=
  Obj.set acc (fst e) (snd e).

(** The flattened key names a mapping node of the tree. *)
Definition addresses_mapping (o : obj) (flattened_key : string) : bool :=
  match lookup_path o (Str.split "." flattened_key) with
  | Some (VObj _) => true
  | _ => false
  end.

(** The intermediate segments of a flattened key. *)
Definition intermediate (flattened_key : string) : list string :=
  slice_init (Str.split "." flattened_key).

(** The walk along the intermediate segments of the key arrives, through
    the tree or through the engine, at a value that takes the write of the
    last segment. *)
Definition goes_through (o : obj) (flattened_key : string) : bool :=
  match walk_section (Some (VObj o)) (intermediate flattened_key) with
  | Normal (Some target) =>
      takes_write target
        (to_property_key (slice_last (Str.split "." flattened_key)))
  | _ => false
  end.

(** The engine has no part in the walk along [segments] from [section]
    and in the write of [key] that follows: every segment is an own
    property of the value it is looked up on, or is missing there and not
    inherited either; and at the end the engine does not take the write
    (on an object of the tree, [key] is not a name plain objects inherit,
    so that no inherited setter comes into play). *)
Fixpoint engine_free_walk (section : option value) (segments : list string)
  (key : string) : bool :=
  match section with
  | None => true
  | Some v =>
      match segments with
      | [] =>
          match v with
          | VObj _ =>
              match inherited OfObject key with
              | Some _ => false
              | None => true
              end
          | _ =>
              match own_property v key with
              | Some _ => true
              | None => negb (accepts (holder_of v) key)
              end
          end
      | path_segment :: rest =>
          match own_property v path_segment with
          | Some next => engine_free_walk (Some next) rest key
          | None =>
              match inherited (holder_of v) path_segment with
              | Some _ => false
              | None => true
              end
          end
      end
  end.

(** What is left of [resolves] once the walk is at [section]. *)
Definition still_resolves (section : option value) (segments : list string)
  : bool :=
  match section with
  | Some (VObj o) => resolves o segments
  | _ => false
  end.

(** The engine has no part in setting the key in the tree [o]. *)
Definition engine_free (o : obj) (flattened_key : string) : bool :=
  engine_free_walk (Some (VObj o)) (intermediate flattened_key)
    (to_property_key (slice_last (Str.split "." flattened_key))).

(** The keys whose value is the empty string, in order. *)
Definition unset_keys (flat : obj) : list string :=
  map fst (filter (fun e => is_empty_string (snd e)) flat).

(** The event of [console.warn(`${key} is empty.`)]. *)
Definition unset_warning (k : string) : event :=
  EvWarn (WarnText (k ++ " is empty.")).

(** The warnings among a list of events. *)
Definition warnings_of (evs : list event) : list warning :=
  flat_map (fun e => match e with EvWarn w => [w] | _ => [] end) evs.

(** The pairs applied among a list of events. *)
Definition sets_of (evs : list event) : list (string * value) :=
  flat_map (fun e => match e with EvSet k v => [(k, v)] | _ => [] end) evs.

(** The calls to the three sources among a list of events. *)
Definition is_source_call (e : event) : bool :=
  match e with
  | EvReadSync _ | EvGetEnv _ | EvParseArgs _ => true
  | _ => false
  end.

(** The two views have the same keys. *)
Definition consistent (i : instance) : Prop :=
  forall k, In k (Obj.keys (flat_view i)) <-> In k (leaf_paths (_config i)).

Definition with_config (i : instance) (c : obj) : instance :=
  {| _config := c;
     _flattened_config := _flattened_config i;
     env_prefix := env_prefix i;
     config_help := config_help i;
     config_file_path := config_file_path i |}.

Definition with_flattened (i : instance) (f : option obj) : instance :=
  {| _config := _config i;
     _flattened_config := f;
     env_prefix := env_prefix i;
     config_help := config_help i;
     config_file_path := config_file_path i |}.

(** The machine after a [_set_option] that goes through. *)
Definition after_set (flattened_key : string) (v : value) (m : machine)
  : machine :=
  let segments := Str.split "." flattened_key in
  let written :=
    with_config (this m)
      (write_at (_config (this m)) (slice_init segments)
         (to_property_key (slice_last segments)) v) in
  {| this := with_flattened written
               (Some (Obj.set (flat_view written) flattened_key v));
     journal := journal m ++ [EvSet flattened_key v] |}.

(** The machine after some host calls. *)
Definition log (evs : list event) (m : machine) : machine :=
  {| this := this m; journal := journal m ++ evs |}.

(** One turn of a source loop: the host calls it makes, then the pair it
    applies, if it has one. *)
Definition turn : Type := (list event * option (string * value))%type.

(** A loop of turns: each pair goes through [_set_option]; the first one
    that throws ends the loop. *)
Fixpoint run_turns (ts : list turn) (m : machine)
  : completion unit * machine :=
  match ts with
  | [] => (Normal tt, m)
  | (calls, item) :: rest =>
      let m1 := log calls m in
      match item with
      | None => run_turns rest m1
      | Some (k, v) =>
          if goes_through (_config (this m1)) k
          then run_turns rest (after_set k v m1)
          else (Throw TypeError, m1)
      end
  end.

Definition pair_of (t : turn) : list (string * value) :=
  match snd t with
  | Some p => [p]
  | None => []
  end.

Definition turn_events (t : turn) : list event :=
  fst t ++ map (fun p => EvSet (fst p) (snd p)) (pair_of t).

(** The turns of the file loop: one per entry of the flattened document,
    without a pair when the value is the empty string. *)
Definition file_turns (doc : obj) : list turn :=
  map (fun e => ([], if is_empty_string (snd e) then None else Some e))
      (Obj.entries (flatten doc)).

(** The non-empty pairs of the flattened document. *)
Definition file_pairs (doc : obj) : list (string * value) :=
  filter (fun e => negb (is_empty_string (snd e))) (flatten doc).

(** The turns of the environment loop over the given keys. *)
Definition env_turns (w : world) (prefix : string) (keys : list string)
  : list turn :=
  map (fun k =>
         ([EvGetEnv (env_name prefix k)],
          option_map (fun s => (k, VStr s))
                     (process_env w (env_name prefix k))))
      keys.

(** The long option declared for a flattened key. *)
Definition arg_flag (key : string) : string :=
  "--" ++ Str.replace_all "." "_" key.

(** The first option string, in the order of the keys, that is declared
    already when its key comes up. *)
Fixpoint clash (declared : list string) (keys : list string)
  : option string :=
  match keys with
  | [] => None
  | key :: rest =>
      if existsb (String.eqb (arg_flag key)) declared
      then Some (arg_flag key)
      else clash (declared ++ [arg_flag key]) rest
  end.

(** The option string on which the parser for these keys cannot be
    built: one that two keys share, or [--help]. *)
Definition flag_clash (keys : list string) : option string :=
  clash ["--help"] keys.

(** The option [_init_argparser] declares for a key. *)
Definition option_for (flattened_config_help : obj) (key : string)
  : argument :=
  {| flag := arg_flag key;
     dest := key;
     help := match get_prop (VObj flattened_config_help) key with
             | Some h => h
             | None => VStr ""
             end |}.

(** The parser for these keys cannot be built: a key has the option
    string [--help], or two keys have the same option string. *)
Definition flags_collide (keys : list string) : Prop :=
  (exists k, In k keys /\ arg_flag k = "--help")
  \/ (exists k1 k2,
        In k1 keys /\ In k2 keys /\ k1 <> k2 /\ arg_flag k1 = arg_flag k2).

(** The turns of the argument loop over the declared destinations. *)
Definition arg_turns (w : world) (keys : list string) : list turn :=
  map (fun k =>
         ([], option_map (fun s => (k, VStr s)) (process_argv w (arg_flag k))))
      keys.

(** The fields that no method writes. *)
Definition same_settings (i i' : instance) : Prop :=
  env_prefix i' = env_prefix i
  /\ config_help i' = config_help i
  /\ config_file_path i' = config_file_path i.

(** The machine once the getter [flattened_config] has been called. *)
Definition materialise (m : machine) : machine :=
  {| this := with_flattened (this m) (Some (flat_view (this m)));
     journal := journal m |}.

(** Between [m] and [m'] only pairs that satisfy [Q] were applied. *)
Definition applies_only (Q : string -> value -> Prop) (m m' : machine)
  : Prop :=
  exists evs,
    journal m' = journal m ++ evs
    /\ forall k v, In (k, v) (sets_of evs) -> Q k v.

(** The flattened value at [k] is the same in [m'] as in [m]. *)
Definition untouched (k : string) (m m' : machine) : Prop :=
  Obj.get (flat_view (this m')) k = Obj.get (flat_view (this m)) k.

(** The value at [k] is the same in [m'] as in [m], in the flattened view
    and in the nested tree. *)
Definition kept (k : string) (m m' : machine) : Prop :=
  untouched k m m'
  /\ lookup_path (_config (this m')) (Str.split "." k)
     = lookup_path (_config (this m)) (Str.split "." k).

(** Either the flattened view is already cached, or none of the keys a
    source has a pair for names a mapping node of the tree. *)
Definition sections_safe (m : machine) (supplied : string -> Prop) : Prop :=
  _flattened_config (this m) <> None
  \/ forall k, supplied k -> addresses_mapping (_config (this m)) k = false.

(** The file has a non-empty value for [k]. *)
Definition file_supplies (w : world) (m : machine) (k : string) : Prop :=
  exists doc v,
    yaml_readSync w (config_file_path (this m)) = ReadDocument doc
    /\ In (k, v) (flatten doc) /\ v <> unset.

(** The environment defines the variable of the top-level key [k]. *)
Definition env_supplies (w : world) (m : machine) (k : string) : Prop :=
  In k (Obj.keys (_config (this m)))
  /\ process_env w (env_name (env_prefix (this m)) k) <> None.

(** The character occurs in the string. *)
Fixpoint contains (c : ascii) (s : string) : bool :=
  match s with
  | EmptyString => false
  | String c' rest => Ascii.eqb c' c || contains c rest
  end.

(** The first segment of a flattened key. *)
Definition first_segment (flattened_key : string) : string :=
  hd "" (Str.split "." flattened_key).

(** The instance with another nested tree and the same cache. *)
Definition swap_config (m : machine) (c : obj) : machine :=
  {| this := with_config (this m) c; journal := journal m |}.

(** The lookup found a mapping node. *)
Definition is_section (found : option value) : bool :=
  match found with
  | Some (VObj _) => true
  | _ => false
  end.

(** The key can be set without touching a section: its intermediate
    segments resolve to mapping nodes and it does not name one itself (it
    names a leaf, or nothing yet). *)
Definition settable (o : obj) (flattened_key : string) : bool :=
  resolves o (intermediate flattened_key)
  && negb (addresses_mapping o flattened_key).

(** A run of [_set_option] calls.  A call that goes through has a scalar
    value and a key that names no mapping node of the tree, and the engine
    has no part in it; a call that throws is part of the run whatever its
    key and value. *)
Inductive set_run : machine -> machine -> Prop :=
| set_run_done m : set_run m m
| set_run_step m k v m1 m2 :
    is_object v = false ->
    engine_free (_config (this m)) k = true ->
    addresses_mapping (_config (this m)) k = false ->
    _set_option k v m = (Normal tt, m1) ->
    set_run m1 m2 ->
    set_run m m2
| set_run_fail m k v e m1 m2 :
    _set_option k v m = (Throw e, m1) ->
    set_run m1 m2 ->
    set_run m m2.

(** Between [m] and [m'] a reader has applied only pairs that satisfy [Q];
    and when no key it has applied names a mapping node of the tree of
    [m], every key it has applied no pair for, and that names no mapping
    node either, has kept its value in both views. *)
Definition reads_only (Q : string -> value -> Prop) (m m' : machine)
  : Prop :=
  exists evs,
    journal m' = journal m ++ evs
    /\ (forall k v, In (k, v) (sets_of evs) -> Q k v)
    /\ ((forall k v, In (k, v) (sets_of evs) ->
                     addresses_mapping (_config (this m)) k = false) ->
        forall k,
          ~ In k (map fst (sets_of evs)) ->
          addresses_mapping (_config (this m)) k = false ->
          kept k m m').

(** * Properties *)

(** ** Strings and objects *)

Lemma split_nonempty sep s : Str.split sep s <> [].
Proof.
  destruct s as [|c s]; simpl; [discriminate|].
  destruct (Ascii.eqb c sep); [discriminate|].
  destruct (Str.split sep s); discriminate.
Qed.

Lemma join_cons sep seg segs :
  segs <> [] ->
  Str.join sep (seg :: segs) = (seg ++ sep ++ Str.join sep segs)%string.
Proof. destruct segs; [congruence | reflexivity]. Qed.

Lemma join_split s : Str.join "." (Str.split "." s) = s.
Proof.
  induction s as [|c s IH]; [reflexivity|].
  simpl Str.split. destruct (Ascii.eqb_spec c ".") as [->|Hc].
  - rewrite join_cons by apply split_nonempty. simpl. now rewrite IH.
  - pose proof (split_nonempty "." s) as Hne.
    destruct (Str.split "." s) as [|seg segs]; [congruence|].
    destruct segs as [|seg' segs].
    + simpl in *. now rewrite IH.
    + rewrite <- IH. rewrite !(@join_cons "." _ (seg' :: segs)) by discriminate.
      reflexivity.
Qed.

Lemma slice_init_last {A} (l : list A) :
  l <> [] -> exists x, slice_last l = [x] /\ l = slice_init l ++ [x].
Proof.
  intros Hne. destruct (exists_last Hne) as [l' [x ->]].
  exists x. unfold slice_last, slice_init.
  rewrite rev_app_distr, removelast_last. auto.
Qed.

Lemma property_key_one x : to_property_key [x] = x.
Proof. reflexivity. Qed.

Lemma get_replace_same o k v :
  Obj.get o k <> None -> Obj.get (Obj.replace o k v) k = Some v.
Proof.
  induction o as [|[k' v'] o IH]; simpl; [congruence|].
  destruct (String.eqb k' k) eqn:E; simpl; rewrite E; auto.
Qed.

Lemma get_replace_other o k v k' :
  k' <> k -> Obj.get (Obj.replace o k v) k' = Obj.get o k'.
Proof.
  intros Hne. induction o as [|[k0 v0] o IH]; simpl; [reflexivity|].
  destruct (String.eqb_spec k0 k) as [->|H0]; simpl.
  - destruct (String.eqb_spec k k'); congruence.
  - now rewrite IH.
Qed.

Lemma get_insert_same o k v :
  Obj.get o k = None -> Obj.get (Obj.insert o k v) k = Some v.
Proof.
  induction o as [|[k' v'] o IH]; simpl.
  - now rewrite String.eqb_refl.
  - destruct (String.eqb k' k) eqn:E; [discriminate|]. intros G.
    destruct (Obj.comes_before k k'); simpl.
    + now rewrite String.eqb_refl.
    + rewrite E. auto.
Qed.

Lemma get_insert_other o k v k' :
  k' <> k -> Obj.get (Obj.insert o k v) k' = Obj.get o k'.
Proof.
  intros Hne. induction o as [|[k0 v0] o IH]; simpl.
  - destruct (String.eqb_spec k k'); congruence.
  - destruct (Obj.comes_before k k0); simpl.
    + destruct (String.eqb_spec k k'); congruence.
    + now rewrite IH.
Qed.

Lemma get_set_same o k v : Obj.get (Obj.set o k v) k = Some v.
Proof.
  unfold Obj.set, Obj.has. destruct (Obj.get o k) eqn:G.
  - apply get_replace_same. congruence.
  - now apply get_insert_same.
Qed.

Lemma get_set_other o k v k' :
  k' <> k -> Obj.get (Obj.set o k v) k' = Obj.get o k'.
Proof.
  intros Hne. unfold Obj.set. destruct (Obj.has o k).
  - now apply get_replace_other.
  - now apply get_insert_other.
Qed.

Lemma keys_replace o k v : Obj.keys (Obj.replace o k v) = Obj.keys o.
Proof.
  unfold Obj.keys. induction o as [|[k0 v0] o IH]; simpl; [reflexivity|].
  destruct (String.eqb k0 k); simpl; [reflexivity | now rewrite IH].
Qed.

(** A new property goes somewhere between the properties that are
    there, which keep their order. *)
Lemma insert_between o k v :
  exists before after,
    o = before ++ after /\ Obj.insert o k v = before ++ (k, v) :: after.
Proof.
  induction o as [|[k0 v0] o [before [after [E I]]]]; simpl.
  - exists [], []. auto.
  - destruct (Obj.comes_before k k0).
    + exists [], ((k0, v0) :: o). auto.
    + exists ((k0, v0) :: before), after. simpl. now rewrite <- E, I.
Qed.

(** A property that is there is replaced where it is. *)
Lemma replace_at o k v c :
  Obj.get o k = Some c ->
  exists before after,
    o = before ++ (k, c) :: after
    /\ Obj.replace o k v = before ++ (k, v) :: after.
Proof.
  induction o as [|[k0 v0] o IH]; simpl; [discriminate|].
  destruct (String.eqb_spec k0 k) as [->|Hk]; intros G.
  - inversion G; subst. exists [], o. auto.
  - destruct (IH G) as [before [after [E I]]].
    exists ((k0, v0) :: before), after. simpl. now rewrite <- E, I.
Qed.

Lemma get_in_keys o k : Obj.get o k <> None <-> In k (Obj.keys o).
Proof.
  unfold Obj.keys. induction o as [|[k0 v0] o IH]; simpl.
  - intuition.
  - destruct (String.eqb_spec k0 k) as [->|H0].
    + split; [auto | discriminate].
    + rewrite IH. intuition.
Qed.

Lemma has_in_keys o k : Obj.has o k = true <-> In k (Obj.keys o).
Proof.
  rewrite <- get_in_keys. unfold Obj.has.
  destruct (Obj.get o k); split; congruence.
Qed.

Lemma keys_set o k v k' :
  In k' (Obj.keys (Obj.set o k v)) <-> In k' (Obj.keys o) \/ k' = k.
Proof.
  unfold Obj.set. destruct (Obj.has o k) eqn:H.
  - rewrite keys_replace. apply has_in_keys in H.
    split; [auto | intros [?| ->]; assumption].
  - destruct (insert_between o k v) as [before [after [E ->]]].
    rewrite E. unfold Obj.keys. rewrite !map_app. simpl.
    rewrite !in_app_iff. simpl. intuition.
Qed.

(** Writing the value that is there already changes nothing. *)
Lemma set_same_value o k x : Obj.get o k = Some x -> Obj.set o k x = o.
Proof.
  intros G. unfold Obj.set, Obj.has. rewrite G.
  induction o as [|[k0 v0] o IH]; simpl in *; [discriminate|].
  destruct (String.eqb_spec k0 k) as [->|Hk].
  - now inversion G.
  - now rewrite IH.
Qed.

(** ** Walking to a section *)

Lemma walk_throws segments : forall section e,
  walk_section section segments = Throw e -> e = TypeError.
Proof.
  induction segments as [|seg rest IH]; intros section e; simpl.
  - discriminate.
  - destruct section as [v|]; simpl; [apply IH | congruence].
Qed.

Lemma walk_resolves path : forall o,
  resolves o path = true ->
  exists sub,
    walk_section (Some (VObj o)) path = Normal (Some (VObj sub))
    /\ lookup_path o path = Some (VObj sub).
Proof.
  induction path as [|p rest IH]; intros o Hr; simpl in *.
  - eauto.
  - unfold get_prop; simpl.
    destruct (Obj.get o p) as [[| | |sub|]|]; try discriminate.
    now apply IH.
Qed.

(** A walk that ends on something else than an object of the tree has
    left the tree. *)
Lemma walk_left_the_tree o path v :
  walk_section (Some (VObj o)) path = Normal (Some v) ->
  is_object v = false ->
  resolves o path = false.
Proof.
  intros W Hv. destruct (resolves o path) eqn:Hr; [|reflexivity].
  destruct (walk_resolves _ _ Hr) as [sub [W' _]].
  rewrite W' in W. inversion W; subst. discriminate.
Qed.

(** Where the path does not lead to an object of the tree, nothing is
    written into the tree. *)
Lemma write_at_unresolved path : forall o key v,
  resolves o path = false -> write_at o path key v = o.
Proof.
  induction path as [|p rest IH]; intros o key v Hr; simpl in *.
  - discriminate.
  - destruct (Obj.get o p) as [[| | |sub|]|] eqn:G; try reflexivity.
    rewrite IH by assumption. now apply set_same_value.
Qed.

Lemma own_of_primitive v s x :
  is_object v = false -> own_property v s = Some x -> is_object x = false.
Proof.
  destruct v; simpl; try discriminate. intros _. unfold own_of_string.
  destruct (String.eqb s "length"); [intros H; inversion H; reflexivity|].
  destruct (Str.canonical_index s); [|discriminate].
  destruct (nth_error _ _); intros H; inversion H; reflexivity.
Qed.

(** Without the engine, a walk ends on a value that takes the write
    exactly when its segments resolve in the tree. *)
Lemma walk_engine_free segments key : forall section,
  engine_free_walk section segments key = true ->
  match walk_section section segments with
  | Normal (Some target) => takes_write target key
  | _ => false
  end = still_resolves section segments.
Proof.
  induction segments as [|seg rest IH]; intros section F; simpl in *.
  - destruct section as [v|]; [|reflexivity]. unfold takes_write.
    destruct v; simpl in *; try reflexivity;
      try (destruct (own_of_string _ _)); try reflexivity;
      now apply negb_true_iff in F.
  - destruct section as [v|]; simpl; [|reflexivity].
    unfold get_prop. destruct (own_property v seg) as [x|] eqn:O.
    + rewrite (IH _ F).
      destruct v; simpl in O |- *; try discriminate.
      * pose proof (@own_of_primitive (VStr s) seg x eq_refl O) as Hx.
        destruct x; try discriminate; reflexivity.
      * rewrite O. destruct x; reflexivity.
    + destruct (inherited (holder_of v) seg); [discriminate|].
      assert (W : match walk_section None rest with
                  | Normal (Some target) => takes_write target key
                  | _ => false
                  end = false) by (destruct rest; reflexivity).
      rewrite W. destruct v; simpl in O |- *; try reflexivity.
      now rewrite O.
Qed.

(** ** [_set_option] in closed form *)

Lemma flattened_config_eq m :
  flattened_config m = (Normal (flat_view (this m)), materialise m).
Proof.
  unfold flattened_config, flat_view, materialise, with_flattened.
  destruct m as [[c [f|] px hp fp] j]; reflexivity.
Qed.

Lemma set_option_eq k v m :
  _set_option k v m =
  if goes_through (_config (this m)) k
  then (Normal tt, after_set k v m)
  else (Throw TypeError, m).
Proof.
  unfold _set_option, _config_path, goes_through, intermediate, bind,
    get_config.
  destruct (walk_section (Some (VObj (_config (this m))))
              (slice_init (Str.split "." k))) as [[target|]|e] eqn:W.
  - unfold ret at 1, assign_section; simpl.
    destruct (is_object target) eqn:T.
    + destruct target; try discriminate. simpl.
      unfold bind, get_config, put_config; simpl.
      unfold flattened_config, after_set, flat_view, with_flattened,
        with_config, bind, put_flattened, ret, emit; simpl.
      destruct (_flattened_config (this m)); reflexivity.
    + pose proof (walk_left_the_tree _ _ W T) as Hr.
      assert (E : after_set k v m
                  = {| this := with_flattened (this m)
                                 (Some (Obj.set (flat_view (this m)) k v));
                       journal := journal m ++ [EvSet k v] |}).
      { unfold after_set. cbv zeta. rewrite write_at_unresolved by exact Hr.
        destruct m as [[c f px hp fp] j]. reflexivity. }
      rewrite E.
      destruct target; try discriminate;
        (destruct (takes_write _ _); [|reflexivity]);
        unfold ret, flattened_config, flat_view, with_flattened, bind,
          put_flattened, ret, emit; simpl;
        destruct (_flattened_config (this m)); reflexivity.
  - reflexivity.
  - apply walk_throws in W. subst e. reflexivity.
Qed.

Lemma resolves_goes_through o k :
  resolves o (intermediate k) = true -> goes_through o k = true.
Proof.
  intros Hr. unfold goes_through.
  destruct (walk_resolves _ _ Hr) as [sub [W _]]. now rewrite W.
Qed.

Lemma not_through_unresolved o k :
  goes_through o k = false -> resolves o (intermediate k) = false.
Proof.
  intros G. destruct (resolves o (intermediate k)) eqn:Hr; [|reflexivity].
  apply resolves_goes_through in Hr. congruence.
Qed.

(** When the engine has no part in it, a set goes through exactly when
    the intermediate segments resolve in the tree. *)
Lemma goes_through_engine_free o k :
  engine_free o k = true -> goes_through o k = resolves o (intermediate k).
Proof.
  intros F. unfold goes_through. now rewrite (walk_engine_free _ _ _ F).
Qed.

Lemma set_option_throw k v m e m' :
  _set_option k v m = (Throw e, m') ->
  e = TypeError
  /\ m' = m
  /\ resolves (_config (this m)) (intermediate k) = false.
Proof.
  rewrite set_option_eq.
  destruct (goes_through _ _) eqn:G; intros H; inversion H; subst.
  repeat split.
  destruct (resolves _ _) eqn:Hr; [|reflexivity].
  apply resolves_goes_through in Hr. congruence.
Qed.

Lemma set_option_normal k v m m' :
  _set_option k v m = (Normal tt, m') ->
  m' = after_set k v m /\ goes_through (_config (this m)) k = true.
Proof.
  rewrite set_option_eq.
  destruct (goes_through _ _); intros H; inversion H; auto.
Qed.

Lemma set_option_resolved k v m :
  resolves (_config (this m)) (intermediate k) = true ->
  _set_option k v m = (Normal tt, after_set k v m).
Proof.
  intros Hr. now rewrite set_option_eq, resolves_goes_through.
Qed.

(** ** Setting an option through a path that does not exist *)

(** C8 (as the code has it): when the intermediate segments of a
    flattened key do not all resolve to existing mapping nodes of the
    configuration, and the engine has no part in the set (no segment is
    answered by an inherited property such as [constructor] or
    [__proto__], and no object of the engine takes the write),
    [_set_option] throws (a [TypeError], the lookup failure of the
    specification) and leaves the whole machine as it was: the nested
    tree, the flattened view and its cache are unchanged and no nesting
    level is created. *)
Theorem set_option_unresolved_path_fails k v m :
  resolves (_config (this m)) (intermediate k) = false ->
  engine_free (_config (this m)) k = true ->
  _set_option k v m = (Throw TypeError, m).
Proof.
  intros Hr F. now rewrite set_option_eq, goes_through_engine_free, Hr.
Qed.

(** ** The file step when there is nothing to read *)

Lemma read_config_file_throws_eq w m e :
  yaml_readSync w (config_file_path (this m)) = ReadThrows e ->
  _read_config_file w m =
  (Normal tt,
   log [EvReadSync (config_file_path (this m)); EvWarn (WarnExn e)] m).
Proof.
  intros H.
  unfold _read_config_file, try_catch, bind, readSync, emit; simpl.
  rewrite H. unfold throw, console_warn, emit, log; simpl.
  now rewrite <- app_assoc.
Qed.

Lemma read_config_file_undefined_eq w m :
  yaml_readSync w (config_file_path (this m)) = ReadUndefined ->
  _read_config_file w m =
  (Normal tt, log [EvReadSync (config_file_path (this m))] m).
Proof.
  intros H.
  unfold _read_config_file, try_catch, bind, readSync, emit; simpl.
  now rewrite H.
Qed.

(** C6: when [yaml.readSync] throws (file absent, unreadable or not
    parseable), [_read_config_file] still completes normally; the
    instance (nested tree, flattened view and its cache) is untouched, no
    pair is applied, and exactly one warning, carrying what was thrown, is
    reported. *)
Theorem read_config_file_unavailable w m e :
  yaml_readSync w (config_file_path (this m)) = ReadThrows e ->
  exists m' evs,
    _read_config_file w m = (Normal tt, m')
    /\ this m' = this m
    /\ journal m' = journal m ++ evs
    /\ sets_of evs = []
    /\ warnings_of evs = [WarnExn e].
Proof.
  intros H. rewrite (read_config_file_throws_eq _ _ H).
  eexists. eexists. repeat split.
Qed.

(** C10: when [yaml.readSync] yields [undefined], [_read_config_file]
    returns at once: the instance is untouched, no pair is applied and no
    warning is reported; the only trace is the call to the reader. *)
Theorem read_config_file_undefined w m :
  yaml_readSync w (config_file_path (this m)) = ReadUndefined ->
  _read_config_file w m =
  (Normal tt,
   {| this := this m;
      journal := journal m ++ [EvReadSync (config_file_path (this m))] |})
  /\ warnings_of [EvReadSync (config_file_path (this m))] = []
  /\ sets_of [EvReadSync (config_file_path (this m))] = [].
Proof.
  intros H. rewrite (read_config_file_undefined_eq _ _ H). repeat split.
Qed.

(** ** The verifier *)

Lemma is_empty_string_iff v : is_empty_string v = true <-> v = unset.
Proof.
  unfold unset. destruct v; simpl; try (split; congruence).
  destruct (String.eqb_spec s ""); split; congruence.
Qed.

Lemma verify_entries_eq es : forall ok m,
  verify_entries es ok m =
  (Normal (ok && forallb (fun e => negb (is_empty_string (snd e))) es),
   {| this := this m;
      journal := journal m ++ map unset_warning (unset_keys es) |}).
Proof.
  unfold unset_keys.
  induction es as [|[k v] es IH]; intros ok m; simpl.
  - rewrite andb_true_r, app_nil_r. now destruct m.
  - destruct (is_empty_string v); simpl.
    + unfold bind, console_warn, emit. rewrite IH. simpl.
      now rewrite andb_false_r, <- app_assoc.
    + apply IH.
Qed.

Lemma unset_keys_nil es :
  forallb (fun e => negb (is_empty_string (snd e))) es = true
  <-> unset_keys es = [].
Proof.
  unfold unset_keys. induction es as [|[k v] es IH]; simpl; [tauto|].
  destruct (is_empty_string v); simpl; [split; discriminate | exact IH].
Qed.

Lemma in_unset_keys es k : In k (unset_keys es) <-> In (k, unset) es.
Proof.
  unfold unset_keys. rewrite in_map_iff. split.
  - intros [[k' v] [<- H]]. apply filter_In in H. destruct H as [H E].
    simpl in *. apply is_empty_string_iff in E. now subst v.
  - intros H. exists (k, unset). split; [reflexivity|].
    apply filter_In. split; [exact H | reflexivity].
Qed.

Lemma verify_config_eq m :
  _verify_config m =
  (Normal (forallb (fun e => negb (is_empty_string (snd e)))
                   (flat_view (this m))),
   log (map unset_warning (unset_keys (flat_view (this m)))) (materialise m)).
Proof.
  unfold _verify_config, bind, flattened_config.
  unfold flat_view, put_flattened, ret, with_flattened, Obj.entries,
    log, materialise, with_flattened.
  destruct m as [[c [f|] px hp fp] j]; simpl; now rewrite verify_entries_eq.
Qed.

(** C3 (as the code has it): a key counts as unset exactly when its value
    is the empty string; [_verify_config] reports one warning per unset
    key, naming the key, in the order of the flattened view, changes
    nothing else, and returns a boolean that is [true] exactly when no key
    is unset.  The unset keys themselves are not returned. *)
Theorem verify_config_reports_unset m :
  let flat := flat_view (this m) in
  (forall k, In k (unset_keys flat) <-> In (k, unset) flat)
  /\ exists ok,
       _verify_config m =
       (Normal ok,
        {| this := with_flattened (this m) (Some flat);
           journal := journal m ++ map unset_warning (unset_keys flat) |})
       /\ (ok = true <-> unset_keys flat = []).
Proof.
  intros flat. split; [intros k; apply in_unset_keys|].
  exists (forallb (fun e => negb (is_empty_string (snd e))) flat). split.
  - apply verify_config_eq.
  - apply unset_keys_nil.
Qed.

(** ** Leaves of a tree and writes into it *)

Lemma leaves_from_obj path fs :
  leaves_from path (VObj fs) = leaves_fields path fs.
Proof.
  unfold leaves_fields. induction fs as [|[k c] fs IH]; [reflexivity|].
  simpl in *. now rewrite IH.
Qed.

Lemma leaves_from_scalar path v :
  is_object v = false -> leaves_from path v = [(path, v)].
Proof. destruct v; simpl; congruence. Qed.

Lemma flatten_eq o : flatten o = Obj.of_entries (map dotted (leaves o)).
Proof. reflexivity. Qed.

Section Filtered.

Variable P : list string * value -> bool.

(** Replacing the child at [k] by one with the same [P]-leaves keeps the
    [P]-leaves of the parent. *)
Lemma filter_leaves_replace prefix k c c' : forall o,
  Obj.get o k = Some c ->
  filter P (leaves_from (prefix ++ [k]) c')
  = filter P (leaves_from (prefix ++ [k]) c) ->
  filter P (leaves_fields prefix (Obj.set o k c'))
  = filter P (leaves_fields prefix o).
Proof.
  intros o G E. unfold Obj.set, Obj.has. rewrite G.
  destruct (replace_at _ _ c' G) as [before [after [Eo ->]]].
  rewrite Eo. unfold leaves_fields.
  rewrite !flat_map_app, !filter_app. simpl. now rewrite !filter_app, E.
Qed.

(** A new child with no [P]-leaves adds none to the parent. *)
Lemma filter_leaves_append prefix k c' : forall o,
  Obj.get o k = None ->
  filter P (leaves_from (prefix ++ [k]) c') = [] ->
  filter P (leaves_fields prefix (Obj.set o k c'))
  = filter P (leaves_fields prefix o).
Proof.
  intros o G E. unfold Obj.set, Obj.has. rewrite G.
  destruct (insert_between o k c') as [before [after [Eo ->]]].
  rewrite Eo. unfold leaves_fields.
  rewrite !flat_map_app, !filter_app. simpl. now rewrite !filter_app, E.
Qed.

(** Writing a scalar where there is no mapping node changes only the
    leaf at the written path. *)
Lemma filter_leaves_write_at path : forall o prefix key v,
  is_object v = false ->
  resolves o path = true ->
  match lookup_path o (path ++ [key]) with
  | Some (VObj _) => False
  | _ => True
  end ->
  (forall x, P (prefix ++ path ++ [key], x) = false) ->
  filter P (leaves_fields prefix (write_at o path key v))
  = filter P (leaves_fields prefix o).
Proof.
  induction path as [|p rest IH]; intros o prefix key v Hv R L HP; simpl in *.
  - assert (Hnew : filter P (leaves_from (prefix ++ [key]) v) = []).
    { rewrite leaves_from_scalar by assumption. simpl. now rewrite HP. }
    destruct (Obj.get o key) as [c|] eqn:G.
    + apply filter_leaves_replace with (c := c); [assumption|].
      rewrite Hnew. destruct c; try contradiction; simpl; now rewrite HP.
    + now apply filter_leaves_append.
  - destruct (Obj.get o p) as [[| | |sub|]|] eqn:G; try discriminate.
    apply filter_leaves_replace with (c := VObj sub); [assumption|].
    rewrite !leaves_from_obj. apply IH; try assumption.
    intros x. rewrite <- app_assoc. apply HP.
Qed.

End Filtered.

Lemma in_leaves_set prefix k c' e : forall o,
  In e (leaves_from (prefix ++ [k]) c') ->
  In e (leaves_fields prefix (Obj.set o k c')).
Proof.
  intros o H. unfold Obj.set, Obj.has, leaves_fields.
  destruct (Obj.get o k) as [c|] eqn:G.
  - destruct (replace_at _ _ c' G) as [before [after [_ ->]]].
    rewrite flat_map_app. apply in_or_app. right. simpl.
    apply in_or_app. now left.
  - destruct (insert_between o k c') as [before [after [_ ->]]].
    rewrite flat_map_app. apply in_or_app. right. simpl.
    apply in_or_app. now left.
Qed.

(** After a write that goes through, the written leaf is in the tree. *)
Lemma in_leaves_write_at path : forall o prefix key v,
  is_object v = false ->
  resolves o path = true ->
  In (prefix ++ path ++ [key], v)
     (leaves_fields prefix (write_at o path key v)).
Proof.
  induction path as [|p rest IH]; intros o prefix key v Hv R; simpl in *.
  - apply in_leaves_set. rewrite leaves_from_scalar by assumption.
    now left.
  - destruct (Obj.get o p) as [[| | |sub|]|] eqn:G; try discriminate.
    apply in_leaves_set. rewrite leaves_from_obj.
    replace (prefix ++ p :: rest ++ [key])
      with ((prefix ++ [p]) ++ rest ++ [key])
      by now rewrite <- app_assoc.
    now apply IH.
Qed.

(** ** The flattened object *)

Lemma get_fold_congr es k : forall acc acc',
  Obj.get acc k = Obj.get acc' k ->
  Obj.get (fold_left assign es acc) k = Obj.get (fold_left assign es acc') k.
Proof.
  induction es as [|[k0 v0] es IH]; intros acc acc' H; simpl; [exact H|].
  apply IH. unfold assign; simpl.
  destruct (String.eqb_spec k k0) as [->|Hk].
  - now rewrite !get_set_same.
  - now rewrite !get_set_other.
Qed.

(** The value at [k] depends only on the entries keyed by [k]. *)
Lemma get_fold_filter es k : forall acc,
  Obj.get (fold_left assign es acc) k
  = Obj.get
      (fold_left assign (filter (fun e => String.eqb (fst e) k) es) acc) k.
Proof.
  induction es as [|[k0 v0] es IH]; intros acc; simpl; [reflexivity|].
  destruct (String.eqb_spec k0 k) as [->|Hk]; simpl.
  - apply IH.
  - rewrite IH. apply get_fold_congr. unfold assign; simpl.
    apply get_set_other. congruence.
Qed.

Lemma keys_fold es k : forall acc,
  In k (Obj.keys (fold_left assign es acc))
  <-> In k (Obj.keys acc) \/ In k (map fst es).
Proof.
  induction es as [|[k0 v0] es IH]; intros acc; simpl; [tauto|].
  rewrite IH. unfold assign; simpl. rewrite keys_set.
  intuition congruence.
Qed.

Lemma filter_map_dotted k ls :
  filter (fun e => String.eqb (fst e) k) (map dotted ls)
  = map dotted (filter (fun e => String.eqb (Str.join "." (fst e)) k) ls).
Proof.
  induction ls as [|e ls IH]; simpl; [reflexivity|].
  destruct (String.eqb (Str.join "." (fst e)) k); simpl; now rewrite IH.
Qed.

(** The flattened view of a tree has the dotted leaf paths as its keys. *)
Lemma flatten_keys o k :
  In k (Obj.keys (flatten o)) <-> In k (leaf_paths o).
Proof.
  rewrite flatten_eq. unfold Obj.of_entries. fold assign.
  rewrite keys_fold. unfold leaf_paths, dotted. rewrite map_map. simpl.
  tauto.
Qed.

(** Every value of a flattened view is a leaf. *)
Lemma leaves_scalar : forall v path e,
  In e (leaves_from path v) -> is_object (snd e) = false.
Proof.
  fix IH 1. intros [s|n|b|fields|eng] path e H;
    try (simpl in H; destruct H as [<-|[]]; reflexivity).
  rewrite leaves_from_obj in H. unfold leaves_fields in H.
  induction fields as [|[k c] fs IHfs]; simpl in H; [contradiction|].
  apply in_app_or in H. destruct H as [H|H].
  - exact (IH c _ _ H).
  - exact (IHfs H).
Qed.

Lemma in_fold_assign es e : forall acc,
  In e (fold_left assign es acc) -> In e acc \/ In e es.
Proof.
  induction es as [|[k0 v0] es IH]; intros acc H; simpl in *; [auto|].
  apply IH in H. destruct H as [H|H]; [|auto].
  unfold assign in H; simpl in H.
  assert (G : forall o, In e (Obj.set o k0 v0) -> In e o \/ e = (k0, v0)).
  { intros o. unfold Obj.set, Obj.has.
    destruct (Obj.get o k0) as [c|] eqn:Gk.
    - destruct (replace_at _ _ v0 Gk) as [before [after [Eo ->]]].
      rewrite Eo, !in_app_iff. simpl. intuition.
    - destruct (insert_between o k0 v0) as [before [after [Eo ->]]].
      rewrite Eo, !in_app_iff. simpl. intuition. }
  apply G in H. intuition.
Qed.

Lemma flatten_scalar o k v : In (k, v) (flatten o) -> is_object v = false.
Proof.
  rewrite flatten_eq. unfold Obj.of_entries. fold assign. intros H.
  apply in_fold_assign in H. destruct H as [[]|H].
  apply in_map_iff in H. destruct H as [e [E H]].
  unfold dotted in E. inversion E; subst.
  eapply leaves_scalar. exact H.
Qed.


(** The joined path of a flattened key is the key. *)
Lemma split_path k :
  exists last,
    slice_last (Str.split "." k) = [last]
    /\ Str.split "." k = intermediate k ++ [last]
    /\ Str.join "." (intermediate k ++ [last]) = k.
Proof.
  destruct (slice_init_last (@split_nonempty "." k)) as [x [L E]].
  exists x. split; [exact L|]. unfold intermediate. split; [exact E|].
  rewrite <- E. apply join_split.
Qed.

Section WriteScalar.

Variables (o : obj) (path : list string) (key : string) (v : value).
Hypothesis scalar : is_object v = false.
Hypothesis reachable : resolves o path = true.

Let k := Str.join "." (path ++ [key]).

(** The written key is a leaf path afterwards. *)
Lemma leaf_paths_write_at_key : In k (leaf_paths (write_at o path key v)).
Proof.
  unfold leaf_paths, leaves. rewrite leaves_from_obj.
  apply in_map_iff. exists (path ++ [key], v). split; [reflexivity|].
  apply (@in_leaves_write_at path o [] key v scalar reachable).
Qed.

Hypothesis no_mapping :
  match lookup_path o (path ++ [key]) with
  | Some (VObj _) => False
  | _ => True
  end.

Lemma leaves_write_at_other k' :
  k' <> k ->
  filter (fun e => String.eqb (Str.join "." (fst e)) k')
         (leaves (write_at o path key v))
  = filter (fun e => String.eqb (Str.join "." (fst e)) k') (leaves o).
Proof.
  intros Hk. unfold leaves. rewrite !leaves_from_obj.
  apply filter_leaves_write_at; try assumption.
  intros x. simpl. apply String.eqb_neq. subst k. congruence.
Qed.

(** The other keys of the flattened view keep their value. *)
Lemma flatten_write_at_other k' :
  k' <> k ->
  Obj.get (flatten (write_at o path key v)) k' = Obj.get (flatten o) k'.
Proof.
  intros Hk. rewrite !flatten_eq. unfold Obj.of_entries. fold assign.
  rewrite get_fold_filter, filter_map_dotted, leaves_write_at_other
    by assumption.
  now rewrite <- filter_map_dotted, <- get_fold_filter.
Qed.

(** The leaf paths gain the written key and nothing else. *)
Lemma leaf_paths_write_at k' :
  In k' (leaf_paths (write_at o path key v))
  <-> In k' (leaf_paths o) \/ k' = k.
Proof.
  destruct (String.eqb_spec k' k) as [->|Hk].
  - split; [auto | intros _; apply leaf_paths_write_at_key].
  - rewrite <- !flatten_keys, <- !get_in_keys.
    rewrite flatten_write_at_other by assumption. tauto.
Qed.

End WriteScalar.

Lemma lookup_path_write_at path : forall o key v,
  resolves o path = true ->
  lookup_path (write_at o path key v) (path ++ [key]) = Some v.
Proof.
  induction path as [|p rest IH]; intros o key v R; simpl in *.
  - rewrite get_set_same. destruct v; reflexivity.
  - destruct (Obj.get o p) as [[| | |sub|]|] eqn:G; try discriminate.
    rewrite get_set_same. now apply IH.
Qed.

(** ** The two views after [_set_option] *)

Lemma unmaterialised_consistent i :
  _flattened_config i = None -> consistent i.
Proof.
  intros H k. unfold flat_view. rewrite H. apply flatten_keys.
Qed.

(** Both views hold the value after a set that goes through. *)
Lemma after_set_both_views k v m :
  resolves (_config (this m)) (intermediate k) = true ->
  Obj.get (flat_view (this (after_set k v m))) k = Some v
  /\ lookup_path (_config (this (after_set k v m))) (Str.split "." k)
     = Some v.
Proof.
  intros R. split.
  - unfold after_set, flat_view; simpl. apply get_set_same.
  - destruct (split_path k) as [last [L [E _]]].
    unfold after_set; simpl. rewrite L, property_key_one.
    rewrite E at 2. now apply lookup_path_write_at.
Qed.

Lemma after_set_consistent k v m :
  is_object v = false ->
  resolves (_config (this m)) (intermediate k) = true ->
  addresses_mapping (_config (this m)) k = false ->
  consistent (this m) ->
  consistent (this (after_set k v m)).
Proof.
  intros Hv R A C k'.
  destruct (split_path k) as [last [L [E J]]].
  unfold addresses_mapping in A. rewrite E in A.
  assert (NM : match lookup_path (_config (this m)) (intermediate k ++ [last])
               with Some (VObj _) => False | _ => True end).
  { destruct (lookup_path _ _) as [[| | | |]|]; try exact I. discriminate. }
  unfold after_set; simpl. rewrite L, property_key_one.
  unfold flat_view at 1; simpl. rewrite keys_set.
  rewrite (@leaf_paths_write_at _ _ _ _ Hv R NM), J.
  unfold consistent, flat_view in C. unfold flat_view; simpl.
  destruct (_flattened_config (this m)) as [f|].
  - rewrite (C k'). tauto.
  - rewrite flatten_keys, (@leaf_paths_write_at _ _ _ _ Hv R NM), J. tauto.
Qed.

(** C4 (as the code has it): a [_set_option] that goes through, and in
    which the engine has no part, writes the value into the nested tree,
    at the place its key resolves to, and into the flattened view under
    the same key; and over any run of [_set_option] calls that fail or
    have a scalar value and a key that is not aimed at a mapping node of
    the tree, the engine having no part in them, the keys of the flattened
    view stay exactly the dotted leaf paths of the nested tree.  This
    holds in particular for every such run that starts from a newly
    constructed instance. *)
Theorem set_option_keeps_views_consistent :
  (forall k v m m1,
      engine_free (_config (this m)) k = true ->
      _set_option k v m = (Normal tt, m1) ->
      Obj.get (flat_view (this m1)) k = Some v
      /\ lookup_path (_config (this m1)) (Str.split "." k) = Some v)
  /\ (forall m m',
         consistent (this m) -> set_run m m' -> consistent (this m'))
  /\ (forall config prefix help path m',
         set_run (boot (constructor config prefix help path)) m' ->
         consistent (this m')).
Proof.
  assert (Keep : forall m m',
             consistent (this m) -> set_run m m' -> consistent (this m')).
  { intros m m' C Run.
    induction Run as [m|m k v m1 m2 Hv F A H Run IH|m k v e m1 m2 H Run IH].
    - exact C.
    - apply IH. apply set_option_normal in H. destruct H as [-> G].
      rewrite goes_through_engine_free in G by exact F.
      now apply after_set_consistent.
    - apply IH. apply set_option_throw in H. destruct H as [_ [-> _]].
      exact C. }
  split; [|split].
  - intros k v m m1 F H. apply set_option_normal in H.
    destruct H as [-> G]. rewrite goes_through_engine_free in G by exact F.
    now apply after_set_both_views.
  - exact Keep.
  - intros config prefix help path m' Run.
    apply (Keep (boot (constructor config prefix help path))); [|exact Run].
    apply unmaterialised_consistent. reflexivity.
Qed.

(** ** Source loops as runs of turns *)

Lemma log_nil m : log [] m = m.
Proof. destruct m. unfold log. simpl. now rewrite app_nil_r. Qed.

Lemma log_log a b m : log b (log a m) = log (a ++ b) m.
Proof. unfold log. simpl. now rewrite app_assoc. Qed.

Lemma after_set_journal k v m :
  journal (after_set k v m) = journal m ++ [EvSet k v].
Proof. reflexivity. Qed.

Lemma after_set_settings k v m :
  same_settings (this m) (this (after_set k v m)).
Proof. repeat split. Qed.

Lemma after_set_materialised k v m :
  _flattened_config (this (after_set k v m)) <> None.
Proof. discriminate. Qed.

(** A set that goes through leaves the other keys of the flattened view
    alone, once the view is cached or when the write does not replace a
    mapping node. *)
Lemma after_set_frame k v m k' :
  k' <> k ->
  _flattened_config (this m) <> None
  \/ (is_object v = false /\ addresses_mapping (_config (this m)) k = false) ->
  Obj.get (flat_view (this (after_set k v m))) k'
  = Obj.get (flat_view (this m)) k'.
Proof.
  intros Hk H.
  unfold after_set, flat_view; simpl. rewrite get_set_other by assumption.
  destruct (_flattened_config (this m)) as [f|]; [reflexivity|].
  destruct H as [H|[Hv A]]; [congruence|].
  destruct (resolves (_config (this m)) (slice_init (Str.split "." k)))
    eqn:R; [|now rewrite write_at_unresolved].
  destruct (split_path k) as [last [L [E J]]].
  unfold addresses_mapping in A. rewrite E in A.
  rewrite L, property_key_one.
  apply flatten_write_at_other; try assumption.
  - destruct (lookup_path _ _) as [[| | | |]|]; try exact I. discriminate.
  - cbv zeta. fold (intermediate k). now rewrite J.
Qed.

Lemma run_turns_app ts1 : forall ts2 m,
  run_turns (ts1 ++ ts2) m =
  match run_turns ts1 m with
  | (Normal _, m1) => run_turns ts2 m1
  | (Throw e, m1) => (Throw e, m1)
  end.
Proof.
  induction ts1 as [|[calls [[k v]|]] ts1 IH]; intros ts2 m; simpl.
  - reflexivity.
  - destruct (goes_through _ _); [apply IH | reflexivity].
  - apply IH.
Qed.

(** What a run of turns leaves in the journal. *)
Lemma run_turns_journal ts : forall m r m',
  run_turns ts m = (r, m') ->
  match r with
  | Normal _ => journal m' = journal m ++ flat_map turn_events ts
  | Throw e =>
      e = TypeError
      /\ exists done calls k v rest,
           ts = done ++ (calls, Some (k, v)) :: rest
           /\ journal m' = journal m ++ flat_map turn_events done ++ calls
           /\ resolves (_config (this m')) (intermediate k) = false
  end.
Proof.
  induction ts as [|[calls item] ts IH]; intros m r m' H; simpl in H.
  - inversion H; subst. simpl. now rewrite app_nil_r.
  - assert (Step : forall m1 evs,
               journal m1 = journal m ++ evs ->
               evs = turn_events (calls, item) ->
               run_turns ts m1 = (r, m') ->
               match r with
               | Normal _ =>
                   journal m' = journal m
                                ++ flat_map turn_events ((calls, item) :: ts)
               | Throw e =>
                   e = TypeError
                   /\ exists done calls0 k v rest,
                        (calls, item) :: ts
                        = done ++ (calls0, Some (k, v)) :: rest
                        /\ journal m' = journal m
                                        ++ flat_map turn_events done ++ calls0
                        /\ resolves (_config (this m')) (intermediate k)
                           = false
               end).
    { intros m1 evs J -> Run. apply IH in Run. destruct r as [u|e].
      - rewrite Run, J. simpl. now rewrite app_assoc.
      - destruct Run as [-> [done [c0 [k [v [rest [-> [J' R]]]]]]]].
        split; [reflexivity|].
        exists ((calls, item) :: done), c0, k, v, rest.
        split; [reflexivity|]. split; [|exact R].
        rewrite J', J. simpl. now rewrite !app_assoc. }
    destruct item as [[k v]|].
    + destruct (goes_through _ _) eqn:R.
      * eapply Step; [| reflexivity | exact H].
        rewrite after_set_journal. unfold log, turn_events; simpl.
        now rewrite app_assoc.
      * inversion H; subst. split; [reflexivity|].
        exists [], calls, k, v, ts. simpl.
        split; [reflexivity|]. split; [reflexivity|].
        now apply not_through_unresolved.
    + eapply Step; [| reflexivity | exact H].
      unfold log, turn_events; simpl. now rewrite app_nil_r.
Qed.

(** A run of turns writes none of the settings, and keeps the flattened
    view cached once it is. *)
Lemma run_turns_settings ts : forall m r m',
  run_turns ts m = (r, m') ->
  same_settings (this m) (this m')
  /\ (_flattened_config (this m) <> None ->
      _flattened_config (this m') <> None).
Proof.
  induction ts as [|[calls [[k v]|]] ts IH]; intros m r m' H; simpl in H.
  - inversion H; subst. repeat split; auto.
  - destruct (goes_through _ _).
    + apply IH in H. destruct H as [[P [Q S]] F]. simpl in *.
      repeat split; auto. intros _. apply F. discriminate.
    + inversion H; subst. repeat split; auto.
  - apply IH in H. exact H.
Qed.

(** The keys that get no pair keep their value in the flattened view. *)
Lemma run_turns_frame ts : forall m r m' k',
  run_turns ts m = (r, m') ->
  ~ In k' (map fst (flat_map pair_of ts)) ->
  _flattened_config (this m) <> None
  \/ (forall k v, In (k, v) (flat_map pair_of ts) ->
        is_object v = false
        /\ addresses_mapping (_config (this m)) k = false) ->
  Obj.get (flat_view (this m')) k' = Obj.get (flat_view (this m)) k'.
Proof.
  induction ts as [|[calls [[k v]|]] ts IH]; intros m r m' k' H N C;
    simpl in H.
  - now inversion H.
  - simpl in N. destruct (goes_through _ _) eqn:R.
    + rewrite (IH _ _ _ k' H).
      * apply (@after_set_frame k v (log calls m) k');
          [intros ->; apply N; now left |].
        destruct C as [C|C]; [now left | right].
        apply (C k v). now left.
      * intros Hk. apply N. now right.
      * left. discriminate.
    + now inversion H.
  - rewrite (IH _ _ _ k' H); [reflexivity | exact N |].
    destruct C as [C|C]; [now left | right]. exact C.
Qed.

(** ** The three readers in closed form *)

Lemma file_loop_eq es : forall m,
  for_of es
    (fun entry =>
       if is_empty_string (snd entry) then ret tt
       else _set_option (fst entry) (snd entry)) m
  = run_turns
      (map (fun e => ([], if is_empty_string (snd e) then None else Some e))
           es) m.
Proof.
  induction es as [|[k v] es IH]; intros m; simpl; [reflexivity|].
  rewrite log_nil. unfold bind at 1.
  destruct (is_empty_string v); simpl.
  - apply IH.
  - rewrite set_option_eq.
    destruct (goes_through _ _); [apply IH | reflexivity].
Qed.

Lemma read_config_file_eq w m doc :
  yaml_readSync w (config_file_path (this m)) = ReadDocument doc ->
  _read_config_file w m =
  match run_turns (file_turns doc)
          (log [EvReadSync (config_file_path (this m))] m) with
  | (Normal _, m') => (Normal tt, m')
  | (Throw e, m') => (Normal tt, log [EvWarn (WarnExn e)] m')
  end.
Proof.
  intros H.
  unfold _read_config_file, try_catch, bind at 1, readSync, bind at 1, emit.
  simpl. rewrite H. unfold ret at 1. rewrite file_loop_eq.
  unfold file_turns, Obj.entries, log. simpl.
  destruct (run_turns _ _) as [[[]|e] m']; reflexivity.
Qed.

Lemma env_loop_eq w keys : forall m,
  for_of keys
    (fun flattened_key m0 =>
       (value <- getenv w (env_name (env_prefix (this m0)) flattened_key) ;;
        match value with
        | None => ret tt
        | Some s => _set_option flattened_key (VStr s)
        end) m0) m
  = run_turns (env_turns w (env_prefix (this m)) keys) m.
Proof.
  induction keys as [|k keys IH]; intros m; simpl; [reflexivity|].
  unfold bind at 1, bind at 1, getenv, bind at 1, emit, ret at 1. simpl.
  fold (log [EvGetEnv (env_name (env_prefix (this m)) k)] m).
  destruct (process_env w (env_name (env_prefix (this m)) k)) as [s|]; simpl.
  - rewrite set_option_eq. destruct (goes_through _ _); [|reflexivity].
    rewrite IH. reflexivity.
  - unfold ret at 1. rewrite IH. reflexivity.
Qed.

Lemma read_environment_eq w m :
  _read_environment w m
  = run_turns
      (env_turns w (env_prefix (this m)) (Obj.keys (_config (this m)))) m.
Proof.
  unfold _read_environment, bind, get_config. apply env_loop_eq.
Qed.

Lemma arg_loop_eq w keys : forall m,
  for_of (map (fun k => (k, process_argv w (arg_flag k))) keys)
    (fun entry =>
       match snd entry with
       | None => ret tt
       | Some s => _set_option (fst entry) (VStr s)
       end) m
  = run_turns (arg_turns w keys) m.
Proof.
  induction keys as [|k keys IH]; intros m; simpl; [reflexivity|].
  rewrite log_nil. unfold bind at 1.
  destruct (process_argv w (arg_flag k)) as [s|]; simpl.
  - rewrite set_option_eq.
    destruct (goes_through _ _); [apply IH | reflexivity].
  - apply IH.
Qed.

Lemma add_arguments_eq keys help0 : forall parser m,
  add_arguments keys help0 parser m =
  match clash ("--help" :: map flag parser) keys with
  | Some f => (Throw (ArgumentError f), m)
  | None => (Normal (parser ++ map (option_for help0) keys), m)
  end.
Proof.
  induction keys as [|key keys IH]; intros parser m.
  - simpl. now rewrite app_nil_r.
  - cbn [add_arguments clash map]. fold (arg_flag key).
    fold (option_for help0 key). unfold bind, addArgument.
    change (flag (option_for help0 key)) with (arg_flag key).
    destruct (existsb (String.eqb (arg_flag key))
                ("--help" :: map flag parser)); [reflexivity|].
    unfold ret at 1. rewrite IH, map_app.
    change (map flag [option_for help0 key]) with [arg_flag key].
    change (("--help" :: map flag parser) ++ [arg_flag key])
      with ("--help" :: map flag parser ++ [arg_flag key]).
    destruct (clash _ _); [reflexivity|].
    now rewrite <- app_assoc.
Qed.

Lemma init_argparser_eq m :
  _init_argparser m =
  match flag_clash (Obj.keys (flat_view (this m))) with
  | Some f => (Throw (ArgumentError f), materialise m)
  | None =>
      (Normal (map (option_for (flatten (config_help (this m))))
                   (Obj.keys (flat_view (this m)))),
       materialise m)
  end.
Proof.
  unfold _init_argparser, bind. rewrite flattened_config_eq.
  rewrite add_arguments_eq. reflexivity.
Qed.

Lemma read_args_eq w m :
  _read_args w m
  = match flag_clash (Obj.keys (flat_view (this m))) with
    | Some f => (Throw (ArgumentError f), materialise m)
    | None =>
        run_turns (arg_turns w (Obj.keys (flat_view (this m))))
          (log [EvParseArgs (map arg_flag (Obj.keys (flat_view (this m))))]
               (materialise m))
    end.
Proof.
  unfold _read_args. unfold bind at 1. rewrite init_argparser_eq.
  destruct (flag_clash _); [reflexivity|].
  unfold parseArgs, bind at 1, bind at 1, emit, ret at 1.
  rewrite !map_map. simpl.
  rewrite <- arg_loop_eq. reflexivity.
Qed.

(** The argument step either stops on an option string it cannot declare,
    before the argument vector is parsed, or runs its turns. *)
Lemma read_args_cases w m r m' :
  _read_args w m = (r, m') ->
  (exists f, r = Throw (ArgumentError f) /\ m' = materialise m)
  \/ (flag_clash (Obj.keys (flat_view (this m))) = None
      /\ run_turns (arg_turns w (Obj.keys (flat_view (this m))))
           (log [EvParseArgs (map arg_flag (Obj.keys (flat_view (this m))))]
                (materialise m))
         = (r, m')).
Proof.
  rewrite read_args_eq. destruct (flag_clash _) as [f|].
  - intros H. inversion H. left. eauto.
  - intros H. right. auto.
Qed.

Lemma read_args_normal w m u m' :
  _read_args w m = (Normal u, m') ->
  run_turns (arg_turns w (Obj.keys (flat_view (this m))))
    (log [EvParseArgs (map arg_flag (Obj.keys (flat_view (this m))))]
         (materialise m))
  = (Normal u, m').
Proof.
  intros H. apply read_args_cases in H.
  destruct H as [[f [H _]]|[_ H]]; [discriminate | exact H].
Qed.

(** ** What the readers apply *)

Lemma sets_of_app a b : sets_of (a ++ b) = sets_of a ++ sets_of b.
Proof. apply flat_map_app. Qed.

Lemma run_turns_sets ts : forall m r m',
  run_turns ts m = (r, m') ->
  Forall (fun t => sets_of (fst t) = []) ts ->
  exists evs,
    journal m' = journal m ++ evs
    /\ incl (sets_of evs) (flat_map pair_of ts).
Proof.
  induction ts as [|[calls [[k v]|]] ts IH]; intros m r m' H F;
    simpl in H;
    [|inversion F as [|t ts' Hc F']; subst; simpl in Hc ..].
  - inversion H; subst. exists []. rewrite app_nil_r. split; [auto|].
    intros x [].
  - destruct (goes_through _ _).
    + destruct (IH _ _ _ H F') as [evs [J I]].
      exists (calls ++ EvSet k v :: evs). split.
      * rewrite J. simpl. now rewrite <- !app_assoc.
      * rewrite sets_of_app, Hc. simpl.
        intros x [<-|Hx]; [now left | right; now apply I].
    + inversion H; subst. exists calls. split; [reflexivity|].
      rewrite Hc. intros x [].
  - destruct (IH _ _ _ H F') as [evs [J I]].
    exists (calls ++ evs). split.
    + rewrite J. simpl. now rewrite <- app_assoc.
    + rewrite sets_of_app, Hc. exact I.
Qed.

Lemma arg_turns_pairs w keys k v :
  In (k, v) (flat_map pair_of (arg_turns w keys))
  <-> In k keys /\ exists s, process_argv w (arg_flag k) = Some s /\ v = VStr s.
Proof.
  unfold arg_turns. induction keys as [|k0 keys IH]; simpl.
  - split; [intros [] | intros [[] _]].
  - rewrite in_app_iff, IH. unfold pair_of; simpl.
    destruct (process_argv w (arg_flag k0)) as [s|] eqn:E; simpl; split.
    + intros [[H|[]]|[H1 H2]]; [|tauto]. inversion H; subst. eauto.
    + intros [[->|H1] [s' [H2 ->]]]; [|right; eauto].
      left. left. congruence.
    + intros [[]|[H1 H2]]. tauto.
    + intros [[->|H1] [s' [H2 ->]]]; [congruence | right; eauto].
Qed.

Lemma env_turns_pairs w prefix keys k v :
  In (k, v) (flat_map pair_of (env_turns w prefix keys))
  <-> In k keys
      /\ exists s, process_env w (env_name prefix k) = Some s /\ v = VStr s.
Proof.
  unfold env_turns. induction keys as [|k0 keys IH]; simpl.
  - split; [intros [] | intros [[] _]].
  - rewrite in_app_iff, IH. unfold pair_of; simpl.
    destruct (process_env w (env_name prefix k0)) as [s|] eqn:E; simpl; split.
    + intros [[H|[]]|[H1 H2]]; [|tauto]. inversion H; subst. eauto.
    + intros [[->|H1] [s' [H2 ->]]]; [|right; eauto].
      left. left. congruence.
    + intros [[]|[H1 H2]]. tauto.
    + intros [[->|H1] [s' [H2 ->]]]; [congruence | right; eauto].
Qed.

Lemma file_turns_pairs doc k v :
  In (k, v) (flat_map pair_of (file_turns doc))
  <-> In (k, v) (flatten doc) /\ is_empty_string v = false.
Proof.
  unfold file_turns, Obj.entries. induction (flatten doc) as [|[k0 v0] es IH];
    simpl.
  - tauto.
  - rewrite in_app_iff, IH. unfold pair_of; simpl.
    destruct (is_empty_string v0) eqn:E; simpl; split.
    + intros [[]|H]; tauto.
    + intros [[H|H] H']; [inversion H; subst; congruence | auto].
    + intros [[H|[]]|H]; [inversion H; subst; auto | tauto].
    + intros [[H|H] H']; auto.
Qed.

Lemma file_pairs_eq doc : flat_map pair_of (file_turns doc) = file_pairs doc.
Proof.
  unfold file_turns, file_pairs, Obj.entries.
  induction (flatten doc) as [|[k0 v0] es IH]; simpl; [reflexivity|].
  unfold pair_of at 1; simpl.
  destruct (is_empty_string v0); simpl; now rewrite IH.
Qed.

Lemma arg_turns_calls w keys :
  Forall (fun t : turn => sets_of (fst t) = []) (arg_turns w keys).
Proof. apply Forall_forall. intros t H. apply in_map_iff in H.
  destruct H as [k [<- _]]. reflexivity. Qed.

Lemma env_turns_calls w prefix keys :
  Forall (fun t : turn => sets_of (fst t) = []) (env_turns w prefix keys).
Proof. apply Forall_forall. intros t H. apply in_map_iff in H.
  destruct H as [k [<- _]]. reflexivity. Qed.

Lemma file_turns_calls doc :
  Forall (fun t : turn => sets_of (fst t) = []) (file_turns doc).
Proof. apply Forall_forall. intros t H. apply in_map_iff in H.
  destruct H as [k [<- _]]. reflexivity. Qed.

Lemma in_map_fst_pairs (ps : list (string * value)) k :
  In k (map fst ps) -> exists v, In (k, v) ps.
Proof.
  intros H. apply in_map_iff in H. destruct H as [[k0 v] [E H]].
  simpl in E. subst. eauto.
Qed.

Lemma read_args_applies w m r m' :
  _read_args w m = (r, m') ->
  applies_only
    (fun k v =>
       In k (Obj.keys (flat_view (this m)))
       /\ exists s, process_argv w (arg_flag k) = Some s /\ v = VStr s)
    m m'
  /\ forall k, process_argv w (arg_flag k) = None -> untouched k m m'.
Proof.
  intros H. apply read_args_cases in H.
  destruct H as [[f [-> ->]]|[_ H]].
  { split; [|intros k _; reflexivity].
    exists []. split; [simpl; now rewrite app_nil_r | intros k v []]. }
  split.
  - destruct (@run_turns_sets _ _ _ _ H (arg_turns_calls _ _)) as [evs [J I]].
    exists (EvParseArgs (map arg_flag (Obj.keys (flat_view (this m)))) :: evs).
    split.
    + rewrite J. simpl. now rewrite <- app_assoc.
    + intros k v Hs. simpl in Hs. apply I in Hs.
      now apply arg_turns_pairs in Hs.
  - intros k Hk. unfold untouched.
    rewrite (@run_turns_frame _ _ _ _ k H).
    + reflexivity.
    + intros Hin. apply in_map_fst_pairs in Hin. destruct Hin as [v Hin].
      apply arg_turns_pairs in Hin. destruct Hin as [_ [s [E _]]]. congruence.
    + left. discriminate.
Qed.

Lemma read_environment_applies w m r m' :
  _read_environment w m = (r, m') ->
  applies_only
    (fun k v =>
       In k (Obj.keys (_config (this m)))
       /\ exists s,
            process_env w (env_name (env_prefix (this m)) k) = Some s
            /\ v = VStr s)
    m m'
  /\ (sections_safe m (env_supplies w m) ->
      forall k, ~ env_supplies w m k -> untouched k m m').
Proof.
  rewrite read_environment_eq. intros H. split.
  - destruct (@run_turns_sets _ _ _ _ H (env_turns_calls _ _ _)) as [evs [J I]].
    exists evs. split; [exact J|].
    intros k v Hs. apply I in Hs. now apply env_turns_pairs in Hs.
  - intros S k Hk. unfold untouched.
    apply (@run_turns_frame _ _ _ _ k H).
    + intros Hin. apply in_map_fst_pairs in Hin. destruct Hin as [v Hin].
      apply env_turns_pairs in Hin. destruct Hin as [K [s [E _]]].
      apply Hk. split; [exact K | congruence].
    + destruct S as [S|S]; [now left | right].
      intros k0 v0 Hin. apply env_turns_pairs in Hin.
      destruct Hin as [K [s [E ->]]]. split; [reflexivity|].
      apply S. split; [exact K | congruence].
Qed.

Lemma read_config_file_applies w m r m' :
  _read_config_file w m = (r, m') ->
  r = Normal tt
  /\ applies_only
       (fun k v =>
          exists doc,
            yaml_readSync w (config_file_path (this m)) = ReadDocument doc
            /\ In (k, v) (flatten doc) /\ v <> unset)
       m m'
  /\ (sections_safe m (file_supplies w m) ->
      forall k, ~ file_supplies w m k -> untouched k m m').
Proof.
  destruct (yaml_readSync w (config_file_path (this m))) as [e| |doc] eqn:Y.
  - erewrite read_config_file_throws_eq by exact Y. intros H.
    inversion H; subst. split; [reflexivity|]. split.
    + eexists. split; [reflexivity|]. intros k v [].
    + intros _ k _. reflexivity.
  - erewrite read_config_file_undefined_eq by exact Y. intros H.
    inversion H; subst. split; [reflexivity|]. split.
    + eexists. split; [reflexivity|]. intros k v [].
    + intros _ k _. reflexivity.
  - erewrite read_config_file_eq by exact Y.
    destruct (run_turns _ _) as [r0 m0] eqn:Run. intros H.
    destruct (@run_turns_sets _ _ _ _ Run (file_turns_calls _)) as [evs [J I]].
    assert (Q : forall k v, In (k, v) (sets_of evs) ->
                  exists doc0, ReadDocument doc = ReadDocument doc0
                               /\ In (k, v) (flatten doc0) /\ v <> unset).
    { intros k v Hs. apply I in Hs. apply file_turns_pairs in Hs.
      destruct Hs as [Hin E]. exists doc. repeat split; auto.
      intros ->. discriminate. }
    assert (Fr : sections_safe m (file_supplies w m) ->
                 forall k, ~ file_supplies w m k ->
                   Obj.get (flat_view (this m0)) k
                   = Obj.get (flat_view (this m)) k).
    { intros S k Hk.
      apply (@run_turns_frame _ _ _ _ k Run).
      - intros Hin. apply in_map_fst_pairs in Hin. destruct Hin as [v Hin].
        apply file_turns_pairs in Hin. destruct Hin as [Hin E].
        apply Hk. exists doc, v. repeat split; auto.
        intros ->. discriminate.
      - destruct S as [S|S]; [now left | right].
        intros k0 v0 Hin. apply file_turns_pairs in Hin.
        destruct Hin as [Hin E]. split.
        + eapply flatten_scalar. exact Hin.
        + apply S. exists doc, v0. repeat split; auto.
          intros ->. discriminate. }
    destruct r0 as [u|e]; inversion H; subst; (split; [reflexivity|]); split.
    + exists (EvReadSync (config_file_path (this m)) :: evs). split.
      * rewrite J. simpl. now rewrite <- app_assoc.
      * exact Q.
    + exact Fr.
    + exists (EvReadSync (config_file_path (this m))
              :: evs ++ [EvWarn (WarnExn e)]). split.
      * simpl. rewrite J. simpl. now rewrite <- !app_assoc.
      * intros k v Hs. simpl in Hs. rewrite sets_of_app in Hs. simpl in Hs.
        rewrite app_nil_r in Hs. now apply Q.
    + exact Fr.
Qed.

(** ** Where a run of turns stops *)

Lemma run_turns_cut ts : forall m e m',
  run_turns ts m = (Throw e, m') ->
  e = TypeError
  /\ exists done calls k v rest m0,
       ts = done ++ (calls, Some (k, v)) :: rest
       /\ run_turns done m = (Normal tt, m0)
       /\ m' = log calls m0
       /\ resolves (_config (this m')) (intermediate k) = false.
Proof.
  induction ts as [|[calls [[k v]|]] ts IH]; intros m e m' H; simpl in H.
  - discriminate.
  - destruct (goes_through _ _) eqn:R.
    + apply IH in H.
      destruct H as [-> [done [c0 [k0 [v0 [rest [m0 [-> [D [-> R0]]]]]]]]]].
      split; [reflexivity|].
      exists ((calls, Some (k, v)) :: done), c0, k0, v0, rest, m0.
      simpl. rewrite R. auto.
    + inversion H; subst. split; [reflexivity|].
      exists [], calls, k, v, ts, m. simpl.
      repeat (split; [reflexivity|]). now apply not_through_unresolved.
  - apply IH in H.
    destruct H as [-> [done [c0 [k0 [v0 [rest [m0 [-> [D [-> R0]]]]]]]]]].
    split; [reflexivity|].
    exists ((calls, None) :: done), c0, k0, v0, rest, m0. simpl. auto.
Qed.

Lemma warnings_of_app a b :
  warnings_of (a ++ b) = warnings_of a ++ warnings_of b.
Proof. apply flat_map_app. Qed.

(** The pairs and warnings in the journal of a run of turns that make no
    host call. *)
Lemma silent_turns_events ts :
  Forall (fun t : turn => fst t = []) ts ->
  sets_of (flat_map turn_events ts) = flat_map pair_of ts
  /\ warnings_of (flat_map turn_events ts) = [].
Proof.
  induction 1 as [|[calls item] ts Hc F [IHs IHw]]; [now split|].
  simpl in Hc. subst calls. simpl.
  rewrite sets_of_app, warnings_of_app, IHs, IHw.
  unfold turn_events, pair_of; simpl.
  destruct item as [[k v]|]; now split.
Qed.

(** After a run that completes, a key that has exactly one pair holds
    the value of that pair. *)
Lemma run_turns_values ts : forall m m' k v,
  run_turns ts m = (Normal tt, m') ->
  NoDup (map fst (flat_map pair_of ts)) ->
  In (k, v) (flat_map pair_of ts) ->
  Obj.get (flat_view (this m')) k = Some v.
Proof.
  induction ts as [|[calls [[k0 v0]|]] ts IH]; intros m m' k v H N Hin;
    simpl in H, N, Hin.
  - contradiction.
  - destruct (goes_through _ _) eqn:R; [|discriminate].
    inversion N as [|x xs Nx N']; subst.
    destruct Hin as [E|Hin].
    + inversion E; subst.
      rewrite (@run_turns_frame _ _ _ _ k H Nx); [|left; discriminate].
      unfold after_set, flat_view; simpl. apply get_set_same.
    + eapply IH; eassumption.
  - eapply IH; eassumption.
Qed.

Lemma nodup_keys_set o k v :
  NoDup (Obj.keys o) -> NoDup (Obj.keys (Obj.set o k v)).
Proof.
  intros N. unfold Obj.set. destruct (Obj.has o k) eqn:H.
  - now rewrite keys_replace.
  - destruct (insert_between o k v) as [before [after [E ->]]].
    assert (Hk : ~ In k (Obj.keys o)).
    { rewrite <- has_in_keys. congruence. }
    subst o. unfold Obj.keys in *. rewrite map_app in *. simpl.
    apply (NoDup_Add (Add_app k _ _)). now split.
Qed.

Lemma nodup_keys_flatten o : NoDup (Obj.keys (flatten o)).
Proof.
  rewrite flatten_eq. unfold Obj.of_entries. fold assign.
  assert (G : forall es acc,
             NoDup (Obj.keys acc) ->
             NoDup (Obj.keys (fold_left assign es acc))).
  { induction es as [|e es IH]; intros acc N; simpl; [exact N|].
    apply IH. now apply nodup_keys_set. }
  apply G. constructor.
Qed.


Lemma nodup_file_pairs doc : NoDup (map fst (file_pairs doc)).
Proof.
  unfold file_pairs. pose proof (nodup_keys_flatten doc) as N.
  unfold Obj.keys in N. induction (flatten doc) as [|[k v] es IH]; simpl.
  - constructor.
  - inversion N as [|x xs Nx N']; subst.
    destruct (is_empty_string v); simpl; [now apply IH|].
    constructor; [|now apply IH].
    intros Hin. apply Nx. apply in_map_iff in Hin.
    destruct Hin as [e [E Hin]]. apply filter_In in Hin.
    apply in_map_iff. exists e. tauto.
Qed.

(** ** The file step on a document *)

Lemma file_turns_silent doc :
  Forall (fun t : turn => fst t = []) (file_turns doc).
Proof.
  apply Forall_forall. intros t H. apply in_map_iff in H.
  destruct H as [k [<- _]]. reflexivity.
Qed.




Lemma nodup_prefix (a b : list (string * value)) :
  NoDup (map fst (a ++ b)) -> NoDup (map fst a).
Proof.
  rewrite map_app. apply NoDup_app_remove_r.
Qed.

(** The file step, on a document, in terms of the pairs it applies. *)
Lemma read_config_file_pairs w m doc :
  yaml_readSync w (config_file_path (this m)) = ReadDocument doc ->
  exists m' evs applied rest,
    _read_config_file w m = (Normal tt, m')
    /\ journal m' = journal m ++ evs
    /\ sets_of evs = applied
    /\ file_pairs doc = applied ++ rest
    /\ (forall k v,
          In (k, v) applied -> Obj.get (flat_view (this m')) k = Some v)
    /\ match rest with
       | [] => warnings_of evs = []
       | (k, _) :: _ =>
           warnings_of evs = [WarnExn TypeError]
           /\ resolves (_config (this m')) (intermediate k) = false
       end.
Proof.
  intros Y. erewrite read_config_file_eq by exact Y.
  destruct (run_turns _ _) as [[[]|e] m0] eqn:Run.
  - pose proof (@run_turns_journal _ _ _ _ Run) as J. simpl in J.
    destruct (silent_turns_events (file_turns_silent doc)) as [S W].
    exists m0, (EvReadSync (config_file_path (this m))
                :: flat_map turn_events (file_turns doc)),
      (file_pairs doc), [].
    split; [reflexivity|]. split; [now rewrite J, <- app_assoc|].
    split; [simpl; now rewrite S, file_pairs_eq|].
    split; [now rewrite app_nil_r|]. split.
    + intros k v Hin. apply (@run_turns_values _ _ _ k v Run).
      * rewrite file_pairs_eq. apply nodup_file_pairs.
      * now rewrite file_pairs_eq.
    + simpl. exact W.
  - destruct (@run_turns_cut _ _ _ _ Run)
      as [-> [done [calls [k [v [rest [m1 [T [D [-> R]]]]]]]]]].
    pose proof (file_turns_silent doc) as F. rewrite T in F.
    apply Forall_app in F. destruct F as [Fd Fr].
    inversion Fr as [|t ts Hc _]; subst. simpl in Hc. subst calls.
    pose proof (@run_turns_journal _ _ _ _ D) as J. simpl in J.
    destruct (silent_turns_events Fd) as [S W].
    assert (P : file_pairs doc
                = flat_map pair_of done ++ (k, v) :: flat_map pair_of rest).
    { rewrite <- file_pairs_eq, T, flat_map_app. reflexivity. }
    exists (log [EvWarn (WarnExn TypeError)] (log [] m1)),
      (EvReadSync (config_file_path (this m))
       :: flat_map turn_events done ++ [EvWarn (WarnExn TypeError)]),
      (flat_map pair_of done), ((k, v) :: flat_map pair_of rest).
    split; [reflexivity|]. split.
    { simpl. rewrite app_nil_r, J. simpl. now rewrite <- !app_assoc. }
    split.
    { simpl. rewrite sets_of_app, S. simpl. now rewrite app_nil_r. }
    split; [exact P|]. split.
    + intros k0 v0 Hin. simpl.
      apply (@run_turns_values _ _ _ k0 v0 D); [|exact Hin].
      apply nodup_prefix with (b := (k, v) :: flat_map pair_of rest).
      rewrite <- P. apply nodup_file_pairs.
    + split; [|exact R].
      simpl. rewrite warnings_of_app, W. reflexivity.
Qed.


(** ** The calls [read] makes to its sources *)

Lemma filter_calls_turn_events ts :
  Forall (fun t : turn => filter is_source_call (fst t) = fst t) ts ->
  filter is_source_call (flat_map turn_events ts) = flat_map fst ts.
Proof.
  induction 1 as [|[calls item] ts Hc F IH]; [reflexivity|].
  simpl in *. rewrite filter_app, IH. unfold turn_events; simpl.
  rewrite filter_app, Hc.
  destruct item as [[k v]|]; simpl; now rewrite app_nil_r.
Qed.

Lemma silent_turns_no_calls ts :
  Forall (fun t : turn => fst t = []) ts -> flat_map fst ts = [].
Proof.
  induction 1 as [|[calls item] ts Hc F IH]; [reflexivity|].
  simpl in *. now rewrite Hc, IH.
Qed.

Lemma silent_turns_are_calls ts :
  Forall (fun t : turn => fst t = []) ts ->
  Forall (fun t : turn => filter is_source_call (fst t) = fst t) ts.
Proof.
  apply Forall_impl. intros t ->. reflexivity.
Qed.

Lemma filter_calls_warnings ks :
  filter is_source_call (map unset_warning ks) = [].
Proof. induction ks; simpl; auto. Qed.

(** The file step always completes, and reads the file once. *)
Lemma read_config_file_calls w m :
  exists m1 evs,
    _read_config_file w m = (Normal tt, m1)
    /\ journal m1 = journal m ++ evs
    /\ filter is_source_call evs = [EvReadSync (config_file_path (this m))]
    /\ same_settings (this m) (this m1).
Proof.
  destruct (yaml_readSync w (config_file_path (this m))) as [e| |doc] eqn:Y.
  - erewrite read_config_file_throws_eq by exact Y.
    eexists. eexists. repeat split.
  - erewrite read_config_file_undefined_eq by exact Y.
    eexists. eexists. repeat split.
  - erewrite read_config_file_eq by exact Y.
    pose proof (file_turns_silent doc) as F.
    destruct (run_turns _ _) as [[[]|e] m0] eqn:Run.
    + pose proof (@run_turns_journal _ _ _ _ Run) as J. simpl in J.
      exists m0, (EvReadSync (config_file_path (this m))
                  :: flat_map turn_events (file_turns doc)).
      split; [reflexivity|]. split; [now rewrite J, <- app_assoc|]. split.
      * simpl. rewrite filter_calls_turn_events
          by now apply silent_turns_are_calls.
        now rewrite silent_turns_no_calls.
      * now apply run_turns_settings in Run.
    + destruct (@run_turns_cut _ _ _ _ Run)
        as [-> [done [calls [k [v [rest [m1 [T [D [-> R]]]]]]]]]].
      rewrite T in F. apply Forall_app in F. destruct F as [Fd Fr].
      inversion Fr as [|t ts Hc _]; subst. simpl in Hc. subst calls.
      pose proof (@run_turns_journal _ _ _ _ D) as J. simpl in J.
      exists (log [EvWarn (WarnExn TypeError)] (log [] m1)),
        (EvReadSync (config_file_path (this m))
         :: flat_map turn_events done ++ [EvWarn (WarnExn TypeError)]).
      split; [reflexivity|]. split.
      { simpl. rewrite app_nil_r, J. simpl. now rewrite <- !app_assoc. }
      split.
      * simpl. rewrite filter_app, filter_calls_turn_events
          by now apply silent_turns_are_calls.
        now rewrite silent_turns_no_calls.
      * now apply run_turns_settings in D.
Qed.

Lemma env_turns_are_calls w prefix keys :
  Forall (fun t : turn => filter is_source_call (fst t) = fst t)
         (env_turns w prefix keys).
Proof.
  apply Forall_forall. intros t H. apply in_map_iff in H.
  destruct H as [k [<- _]]. reflexivity.
Qed.

Lemma env_turns_calls_eq w prefix keys :
  flat_map fst (env_turns w prefix keys)
  = map (fun k => EvGetEnv (env_name prefix k)) keys.
Proof.
  unfold env_turns. induction keys as [|k keys IH]; simpl; [reflexivity|].
  now rewrite IH.
Qed.

(** An environment step that completes looks up one variable per
    top-level property name of the nested tree, in order. *)
Lemma read_environment_calls w m u m2 :
  _read_environment w m = (Normal u, m2) ->
  exists evs,
    journal m2 = journal m ++ evs
    /\ filter is_source_call evs
       = map (fun k => EvGetEnv (env_name (env_prefix (this m)) k))
             (Obj.keys (_config (this m)))
    /\ same_settings (this m) (this m2).
Proof.
  rewrite read_environment_eq. intros Run.
  pose proof (@run_turns_journal _ _ _ _ Run) as J. simpl in J.
  eexists. split; [exact J|]. split.
  - rewrite filter_calls_turn_events by apply env_turns_are_calls.
    apply env_turns_calls_eq.
  - now apply run_turns_settings in Run.
Qed.

Lemma arg_turns_silent w keys :
  Forall (fun t : turn => fst t = []) (arg_turns w keys).
Proof.
  apply Forall_forall. intros t H. apply in_map_iff in H.
  destruct H as [k [<- _]]. reflexivity.
Qed.

(** An argument step that completes parses the argument vector once. *)
Lemma read_args_calls w m u m3 :
  _read_args w m = (Normal u, m3) ->
  exists evs,
    journal m3 = journal m ++ evs
    /\ filter is_source_call evs
       = [EvParseArgs (map arg_flag (Obj.keys (flat_view (this m))))].
Proof.
  intros Run. apply read_args_normal in Run.
  pose proof (@run_turns_journal _ _ _ _ Run) as J. simpl in J.
  eexists. split; [rewrite J, <- app_assoc; reflexivity|].
  simpl. rewrite filter_calls_turn_events
    by apply silent_turns_are_calls, arg_turns_silent.
  now rewrite silent_turns_no_calls by apply arg_turns_silent.
Qed.

(** C2 (as the code has it): [read] runs the file step, which always
    completes, then the environment step on the store the file step left,
    then the argument step on the store the environment step left, then the
    verifier, whose boolean it returns.  When it returns, the file has been
    read once, then environment variables have been looked up, then the
    argument vector has been parsed once, in this order.  When the
    environment step or the argument step throws, [read] throws the same
    error and the remaining steps do not run. *)
Theorem read_runs_steps_in_order w m :
  exists m1,
    _read_config_file w m = (Normal tt, m1)
    /\ match _read_environment w m1 with
       | (Throw e, m2) => read w m = (Throw e, m2)
       | (Normal _, m2) =>
           match _read_args w m2 with
           | (Throw e, m3) => read w m = (Throw e, m3)
           | (Normal _, m3) =>
               exists ok m4 evs names flags,
                 _verify_config m3 = (Normal ok, m4)
                 /\ read w m = (Normal ok, m4)
                 /\ journal m4 = journal m ++ evs
                 /\ filter is_source_call evs
                    = EvReadSync (config_file_path (this m))
                      :: map EvGetEnv names ++ [EvParseArgs flags]
           end
       end.
Proof.
  destruct (read_config_file_calls w m) as [m1 [evs1 [F [J1 [C1 [P1 _]]]]]].
  exists m1. split; [exact F|].
  unfold read, bind. rewrite F.
  destruct (_read_environment w m1) as [[u2|e2] m2] eqn:E; [|reflexivity].
  destruct (read_environment_calls _ _ E) as [evs2 [J2 [C2 _]]].
  destruct (_read_args w m2) as [[u3|e3] m3] eqn:A; [|reflexivity].
  destruct (read_args_calls _ _ A) as [evs3 [J3 C3]].
  rewrite verify_config_eq.
  eexists. eexists.
  exists (evs1 ++ evs2 ++ evs3
          ++ map unset_warning (unset_keys (flat_view (this m3)))).
  exists (map (env_name (env_prefix (this m1))) (Obj.keys (_config (this m1)))).
  eexists.
  split; [reflexivity|]. split; [reflexivity|]. split.
  - unfold log, materialise; simpl. rewrite J3, J2, J1.
    now rewrite <- !app_assoc.
  - rewrite !filter_app, C1, C2, C3, filter_calls_warnings, map_map.
    reflexivity.
Qed.

(** ** Nested options and the environment *)

(** C9 (what the code does, and a failing input): an environment step
    that completes looks up exactly one variable per top-level property
    name of the nested tree, in order, whatever the flattened key set is.
    With the schema [{db: {host: "", port: ""}}] and prefix [APP], the
    variable [APP_DB_HOST] is defined, yet the step looks up [APP_DB]
    only, applies nothing, and leaves [db.host] unset. *)
Theorem read_environment_misses_nested_key :
  (forall w m u m2,
      _read_environment w m = (Normal u, m2) ->
      exists evs,
        journal m2 = journal m ++ evs
        /\ filter is_source_call evs
           = map (fun k => EvGetEnv (env_name (env_prefix (this m)) k))
                 (Obj.keys (_config (this m))))
  /\ In "db.host" (Obj.keys (flat_view (this Sample.fresh)))
  /\ env_name "APP" "db.host" = "APP_DB_HOST"
  /\ process_env Sample.nested_env "APP_DB_HOST" = Some "localhost"
  /\ exists m',
       _read_environment Sample.nested_env Sample.fresh = (Normal tt, m')
       /\ journal m' = [EvGetEnv "APP_DB"]
       /\ Obj.get (flat_view (this m')) "db.host" = Some unset.
Proof.
  split.
  - intros w m u m2 H.
    destruct (read_environment_calls _ _ H) as [evs [J [C _]]]. eauto.
  - split; [vm_compute; auto|]. split; [reflexivity|].
    split; [reflexivity|].
    eexists. split; [vm_compute; reflexivity|]. split; reflexivity.
Qed.

(** C1 (the code at a failing input): same schema and prefix; the file
    sets [db.port] to 5432, the environment defines [APP_DB_HOST], no
    argument is given.  The environment is the highest-priority source
    with a value for [db.host], yet after [read] the key is still unset
    and [read] returns [false]. *)
Theorem read_ignores_environment_for_nested_key :
  process_argv Sample.nested_env (arg_flag "db.host") = None
  /\ process_env Sample.nested_env (env_name "APP" "db.host")
     = Some "localhost"
  /\ exists m',
       read Sample.nested_env Sample.fresh = (Normal false, m')
       /\ Obj.get (flat_view (this m')) "db.host" = Some unset
       /\ Obj.get (flat_view (this m')) "db.port" = Some (VNum 5432)
       /\ warnings_of (journal m') = [WarnText "db.host is empty."].
Proof.
  split; [reflexivity|]. split; [reflexivity|].
  eexists. split; [vm_compute; reflexivity|]. repeat split.
Qed.

(** * Further properties of the methods *)

(** ** The getter [flattened_config] *)

(** X1: the getter returns the flattened view and caches it; a second
    call returns the same object and changes nothing, even when the nested
    tree has been replaced in between: the cache is never recomputed. *)
Theorem flattened_config_memoised m :
  exists m1,
    flattened_config m = (Normal (flat_view (this m)), m1)
    /\ _config (this m1) = _config (this m)
    /\ journal m1 = journal m
    /\ flattened_config m1 = (Normal (flat_view (this m)), m1)
    /\ forall c,
         flattened_config (swap_config m1 c)
         = (Normal (flat_view (this m)), swap_config m1 c).
Proof.
  exists (materialise m).
  unfold flattened_config, flat_view, materialise, swap_config, with_config,
    with_flattened, bind, put_flattened, ret.
  destruct m as [[c [f|] px hp fp] j]; simpl; repeat split.
Qed.

(** ** [_set_option] again *)

Lemma replace_replace o k v1 v2 :
  Obj.replace (Obj.replace o k v1) k v2 = Obj.replace o k v2.
Proof.
  induction o as [|[k0 v0] o IH]; simpl; [reflexivity|].
  destruct (String.eqb k0 k) eqn:E; simpl; rewrite E; [reflexivity|].
  now rewrite IH.
Qed.

Lemma replace_insert o k v1 v2 :
  Obj.get o k = None ->
  Obj.replace (Obj.insert o k v1) k v2 = Obj.insert o k v2.
Proof.
  induction o as [|[k0 v0] o IH]; simpl.
  - now rewrite String.eqb_refl.
  - destruct (String.eqb k0 k) eqn:E; [discriminate|]. intros G.
    destruct (Obj.comes_before k k0); simpl.
    + now rewrite String.eqb_refl.
    + rewrite E. now rewrite IH.
Qed.

Lemma set_set o k v1 v2 : Obj.set (Obj.set o k v1) k v2 = Obj.set o k v2.
Proof.
  assert (H : Obj.has (Obj.set o k v1) k = true).
  { unfold Obj.has. now rewrite get_set_same. }
  unfold Obj.set at 1. rewrite H. unfold Obj.set, Obj.has.
  destruct (Obj.get o k) eqn:G.
  - apply replace_replace.
  - now apply replace_insert.
Qed.

Lemma resolves_write_at path : forall o key v,
  resolves o path = true -> resolves (write_at o path key v) path = true.
Proof.
  induction path as [|p rest IH]; intros o key v R; simpl in *; [reflexivity|].
  destruct (Obj.get o p) as [[| | |sub|]|] eqn:G; try discriminate.
  rewrite get_set_same. now apply IH.
Qed.

Lemma write_at_twice path : forall o key v1 v2,
  resolves o path = true ->
  write_at (write_at o path key v1) path key v2 = write_at o path key v2.
Proof.
  induction path as [|p rest IH]; intros o key v1 v2 R; simpl in *.
  - apply set_set.
  - destruct (Obj.get o p) as [[| | |sub|]|] eqn:G; try discriminate.
    rewrite get_set_same, set_set. now rewrite IH.
Qed.

(** X2: last write wins.  After a set that went through, the engine
    having no part in it, a second set of the same key also goes through,
    and leaves the second value in the flattened view and at the key's
    place in the nested tree; the tree is the one a single set of the
    second value would have produced. *)
Theorem set_option_last_write_wins k v1 v2 m m1 :
  engine_free (_config (this m)) k = true ->
  _set_option k v1 m = (Normal tt, m1) ->
  exists m2,
    _set_option k v2 m1 = (Normal tt, m2)
    /\ Obj.get (flat_view (this m2)) k = Some v2
    /\ lookup_path (_config (this m2)) (Str.split "." k) = Some v2
    /\ _config (this m2) = _config (this (after_set k v2 m)).
Proof.
  intros F H. apply set_option_normal in H. destruct H as [-> G].
  rewrite goes_through_engine_free in G by exact F.
  assert (R1 : resolves (_config (this (after_set k v1 m))) (intermediate k)
               = true).
  { unfold after_set; simpl. now apply resolves_write_at. }
  exists (after_set k v2 (after_set k v1 m)).
  rewrite (set_option_resolved _ _ _ R1). split; [reflexivity|].
  destruct (@after_set_both_views k v2 (after_set k v1 m) R1) as [Fl T].
  split; [exact Fl|]. split; [exact T|].
  unfold after_set; simpl. now apply write_at_twice.
Qed.


Lemma write_at_top path : forall o key v s,
  s <> hd "" (path ++ [key]) ->
  Obj.get (write_at o path key v) s = Obj.get o s.
Proof.
  destruct path as [|p rest]; intros o key v s Hs; simpl in *.
  - now apply get_set_other.
  - destruct (Obj.get o p) as [[| | |sub|]|]; try reflexivity.
    now apply get_set_other.
Qed.

(** X4: what a set leaves alone.  A set that goes through changes nothing
    in the nested tree outside the top-level property named by the first
    segment of its key, writes none of the settings, and, when the
    flattened view is already cached, changes no other key of it. *)
Theorem set_option_frame k v m m1 :
  _set_option k v m = (Normal tt, m1) ->
  (forall s, s <> first_segment k ->
             Obj.get (_config (this m1)) s = Obj.get (_config (this m)) s)
  /\ same_settings (this m) (this m1)
  /\ (_flattened_config (this m) <> None ->
      forall k', k' <> k ->
                 Obj.get (flat_view (this m1)) k'
                 = Obj.get (flat_view (this m)) k').
Proof.
  intros H. apply set_option_normal in H. destruct H as [-> _].
  split; [|split].
  - intros s Hs. destruct (split_path k) as [last [L [E _]]].
    unfold after_set; simpl. rewrite L, property_key_one.
    apply write_at_top. fold (intermediate k).
    unfold first_segment in Hs. now rewrite E in Hs.
  - apply after_set_settings.
  - intros C k' Hk. apply after_set_frame; auto.
Qed.

(** ** Names of variables and flags *)

Lemma upper_ascii_idem c :
  Str.upper_ascii (Str.upper_ascii c) = Str.upper_ascii c.
Proof. destruct c as [[] [] [] [] [] [] [] []]; reflexivity. Qed.

Lemma upper_ascii_dot c :
  Ascii.eqb (Str.upper_ascii c) "." = Ascii.eqb c ".".
Proof. destruct c as [[] [] [] [] [] [] [] []]; reflexivity. Qed.

Lemma upper_underscore : Str.upper_ascii "_" = "_"%char.
Proof. reflexivity. Qed.

Lemma ascii_upper_idem s :
  Str.ascii_upper (Str.ascii_upper s) = Str.ascii_upper s.
Proof.
  induction s as [|c s IH]; simpl; [reflexivity|].
  now rewrite upper_ascii_idem, IH.
Qed.

Lemma replace_all_idem s :
  Str.replace_all "." "_" (Str.replace_all "." "_" s)
  = Str.replace_all "." "_" s.
Proof.
  induction s as [|c s IH]; simpl; [reflexivity|]. rewrite IH.
  destruct (Ascii.eqb c ".") eqn:E; [reflexivity | now rewrite E].
Qed.

Lemma upper_replace_upper s :
  Str.ascii_upper (Str.replace_all "." "_" (Str.ascii_upper s))
  = Str.ascii_upper (Str.replace_all "." "_" s).
Proof.
  induction s as [|c s IH]; simpl; [reflexivity|]. rewrite IH.
  rewrite upper_ascii_dot.
  destruct (Ascii.eqb c "."); [reflexivity | now rewrite upper_ascii_idem].
Qed.

Lemma contains_replace_all s :
  contains "." (Str.replace_all "." "_" s) = false.
Proof.
  induction s as [|c s IH]; simpl; [reflexivity|]. rewrite IH.
  destruct (Ascii.eqb c ".") eqn:E; [reflexivity | now rewrite E].
Qed.

Lemma contains_upper s :
  contains "." (Str.ascii_upper s) = contains "." s.
Proof.
  induction s as [|c s IH]; simpl; [reflexivity|].
  now rewrite upper_ascii_dot, IH.
Qed.

Lemma length_replace_all s :
  String.length (Str.replace_all "." "_" s) = String.length s.
Proof. induction s as [|c s IH]; simpl; congruence. Qed.

Lemma length_ascii_upper s :
  String.length (Str.ascii_upper s) = String.length s.
Proof. induction s as [|c s IH]; simpl; congruence. Qed.

Lemma is_ascii_upper s : Str.is_ascii (Str.ascii_upper s) = Str.is_ascii s.
Proof.
  induction s as [|c s IH]; simpl; [reflexivity|]. rewrite IH. f_equal.
  destruct c as [[] [] [] [] [] [] [] []]; reflexivity.
Qed.

Lemma is_ascii_replace_all s :
  Str.is_ascii (Str.replace_all "." "_" s) = Str.is_ascii s.
Proof.
  induction s as [|c s IH]; simpl; [reflexivity|]. rewrite IH. f_equal.
  destruct (Ascii.eqb_spec c ".") as [->|]; reflexivity.
Qed.

(** X5: the names derived from a flattened key.  Neither the variable
    looked up for a key nor its flag distinguishes a dot from an
    underscore, and the flag has no dot.  For a key of ASCII characters,
    the variable is the prefix, an underscore, and a dot-free name as
    long as the key, and it does not distinguish a lower-case letter from
    its capital either.  Keys that differ only in these respects share
    their variable and their flag. *)
Theorem derived_names_collapse prefix k :
  env_name prefix (Str.replace_all "." "_" k) = env_name prefix k
  /\ contains "." (arg_flag k) = false
  /\ arg_flag (Str.replace_all "." "_" k) = arg_flag k
  /\ (Str.is_ascii k = true ->
      (exists name,
          env_name prefix k = (prefix ++ "_" ++ name)%string
          /\ contains "." name = false
          /\ String.length name = String.length k)
      /\ env_name prefix (toUpperCase k) = env_name prefix k).
Proof.
  unfold env_name, arg_flag. split; [|split; [|split]].
  - now rewrite replace_all_idem.
  - simpl. apply contains_replace_all.
  - now rewrite replace_all_idem.
  - intros A. unfold toUpperCase.
    rewrite A, !is_ascii_replace_all, is_ascii_upper, A. split.
    + eexists. split; [reflexivity|]. split.
      * rewrite contains_upper. apply contains_replace_all.
      * now rewrite length_ascii_upper, length_replace_all.
    + now rewrite upper_replace_upper.
Qed.

(** ** [_init_argparser] *)

Lemma clash_none keys : forall declared,
  clash declared keys = None
  <-> NoDup (map arg_flag keys)
      /\ forall k, In k keys -> ~ In (arg_flag k) declared.
Proof.
  induction keys as [|key rest IH]; intros declared; cbn [clash map In].
  - split; [intros _; split; [constructor | intros k []] | reflexivity].
  - destruct (existsb (String.eqb (arg_flag key)) declared) eqn:E.
    + split; [discriminate|]. intros [_ H]. exfalso.
      apply existsb_exists in E. destruct E as [x [Hx Ex]].
      apply String.eqb_eq in Ex. subst x. apply (H key); auto.
    + assert (Hkey : ~ In (arg_flag key) declared).
      { intros Hin. apply Bool.not_true_iff_false in E. apply E.
        apply existsb_exists. exists (arg_flag key).
        split; [exact Hin | apply String.eqb_refl]. }
      rewrite IH. split.
      * intros [N H]. split.
        -- constructor; [|exact N]. intros Hin. apply in_map_iff in Hin.
           destruct Hin as [k [Ek Hk]]. apply (H k Hk).
           apply in_or_app. right. left. now symmetry.
        -- intros k [<-|Hk]; [exact Hkey|]. intros Hin. apply (H k Hk).
           apply in_or_app. now left.
      * intros [N H]. inversion N as [|x xs Nx N']; subst. split; [exact N'|].
        intros k Hk Hin. apply in_app_or in Hin. destruct Hin as [Hin|[Ek|[]]].
        -- apply (H k); auto.
        -- apply Nx. rewrite Ek. now apply in_map.
Qed.

Lemma nodup_map_injective (f : string -> string) l a b :
  NoDup (map f l) -> In a l -> In b l -> f a = f b -> a = b.
Proof.
  induction l as [|x l IH]; simpl; intros N Ha Hb E; [contradiction|].
  inversion N as [|y ys Nx N']; subst.
  destruct Ha as [->|Ha], Hb as [->|Hb]; auto.
  - exfalso. apply Nx. rewrite E. now apply in_map.
  - exfalso. apply Nx. rewrite <- E. now apply in_map.
Qed.

Lemma flags_collide_clash keys :
  flags_collide keys -> flag_clash keys <> None.
Proof.
  intros C H. apply clash_none in H. destruct H as [N D].
  destruct C as [[k [Hk E]]|[k1 [k2 [H1 [H2 [Hne E]]]]]].
  - apply (D k Hk). rewrite E. now left.
  - apply Hne. apply (nodup_map_injective arg_flag keys); assumption.
Qed.

(** X6: option strings that collide.  When a key of the flattened view
    has the option string [--help], or two of its keys have the same
    option string (as [a.b] and [a_b] do), the parser cannot be built:
    the argument step throws before the argument vector is parsed and
    before any pair is applied, having done nothing but cache the view. *)
Theorem read_args_refuses_shared_flag w m :
  flags_collide (Obj.keys (flat_view (this m))) ->
  exists f, _read_args w m = (Throw (ArgumentError f), materialise m).
Proof.
  intros C. apply flags_collide_clash in C. rewrite read_args_eq.
  destruct (flag_clash _) as [f|]; [|congruence]. eauto.
Qed.

(** ** Keys without a dot *)

Lemma split_dot_free k : contains "." k = false -> Str.split "." k = [k].
Proof.
  induction k as [|c k IH]; simpl; [reflexivity|].
  destruct (Ascii.eqb c "."); simpl; [discriminate|].
  intros H. now rewrite (IH H).
Qed.

Lemma intermediate_dot_free k : contains "." k = false -> intermediate k = [].
Proof. intros H. unfold intermediate. now rewrite split_dot_free. Qed.

Lemma after_set_dot_free k v m :
  contains "." k = false ->
  _config (this (after_set k v m)) = Obj.set (_config (this m)) k v.
Proof.
  intros H. unfold after_set; simpl. now rewrite split_dot_free.
Qed.

(** ** The value a run of turns leaves at a key *)

Lemma run_turns_last_value ts : forall m m' k v,
  run_turns ts m = (Normal tt, m') ->
  In (k, v) (flat_map pair_of ts) ->
  (forall v', In (k, v') (flat_map pair_of ts) -> v' = v) ->
  Obj.get (flat_view (this m')) k = Some v.
Proof.
  induction ts as [|[calls [[k0 v0]|]] ts IH]; intros m m' k v H Hin U;
    simpl in H, Hin.
  - contradiction.
  - destruct (goes_through _ _) eqn:R; [|discriminate].
    destruct (in_dec string_dec k (map fst (flat_map pair_of ts)))
      as [Hk|Hk].
    + apply in_map_fst_pairs in Hk. destruct Hk as [v' Hk].
      assert (v' = v) by (apply U; simpl; now right). subst v'.
      apply (IH _ _ _ _ H Hk). intros v' Hv'. apply U. simpl. now right.
    + destruct Hin as [E|Hin].
      * inversion E; subst.
        rewrite (@run_turns_frame _ _ _ _ k H Hk); [|left; discriminate].
        unfold after_set, flat_view; simpl. apply get_set_same.
      * exfalso. apply Hk. apply in_map_iff. now exists (k, v).
  - apply (IH _ _ _ _ H Hin U).
Qed.

(** A run of turns whose keys have no dot never throws, and leaves at
    each top-level name the value of its pairs. *)
Lemma run_turns_dot_free ts : forall m,
  (forall k v, In (k, v) (flat_map pair_of ts) -> contains "." k = false) ->
  exists m',
    run_turns ts m = (Normal tt, m')
    /\ (forall k, ~ In k (map fst (flat_map pair_of ts)) ->
                  Obj.get (_config (this m')) k = Obj.get (_config (this m)) k)
    /\ (forall k v,
          In (k, v) (flat_map pair_of ts) ->
          (forall v', In (k, v') (flat_map pair_of ts) -> v' = v) ->
          Obj.get (_config (this m')) k = Some v).
Proof.
  induction ts as [|[calls [[k0 v0]|]] ts IH]; intros m D; cbn [run_turns].
  - exists m. split; [reflexivity|]. split; [reflexivity|]. intros k v [].
  - assert (D0 : contains "." k0 = false) by (apply (D k0 v0); simpl; now left).
    assert (G : goes_through (_config (this (log calls m))) k0 = true).
    { apply resolves_goes_through. now rewrite intermediate_dot_free. }
    rewrite G.
    destruct (IH (after_set k0 v0 (log calls m))) as [m' [Run [Fr Val]]].
    { intros k v Hin. apply (D k v). simpl. now right. }
    exists m'. split; [exact Run|].
    rewrite (@after_set_dot_free k0 v0 (log calls m) D0) in Fr.
    simpl in Fr. split.
    + intros k Hk. rewrite Fr by (intros Hin; apply Hk; simpl; now right).
      apply get_set_other. intros ->. apply Hk. simpl. now left.
    + intros k v Hin U.
      destruct (in_dec string_dec k (map fst (flat_map pair_of ts)))
        as [Hk|Hk].
      * apply in_map_fst_pairs in Hk. destruct Hk as [v' Hk].
        assert (v' = v) by (apply U; simpl; now right). subst v'.
        apply (Val _ _ Hk). intros v' Hv'. apply U. simpl. now right.
      * simpl in Hin. destruct Hin as [E|Hin].
        -- inversion E; subst. rewrite (Fr _ Hk). apply get_set_same.
        -- exfalso. apply Hk. apply in_map_iff. now exists (k, v).
  - destruct (IH (log calls m)) as [m' [Run [Fr Val]]].
    { intros k v Hin. apply (D k v). exact Hin. }
    exists m'. split; [exact Run|]. split; [exact Fr | exact Val].
Qed.

(** ** The environment step on top-level names without a dot *)

(** X7: when no top-level property name of the nested tree contains a
    dot, the environment step cannot throw.  Every top-level name whose
    variable is defined then holds the variable's string in both views,
    whatever it held before (a section included) and also when the string
    is empty; a name whose variable is not defined keeps what the nested
    tree had. *)
Theorem read_environment_top_level w m :
  (forall k, In k (Obj.keys (_config (this m))) -> contains "." k = false) ->
  exists m',
    _read_environment w m = (Normal tt, m')
    /\ (forall k s,
          In k (Obj.keys (_config (this m))) ->
          process_env w (env_name (env_prefix (this m)) k) = Some s ->
          Obj.get (_config (this m')) k = Some (VStr s)
          /\ Obj.get (flat_view (this m')) k = Some (VStr s))
    /\ (forall k,
          process_env w (env_name (env_prefix (this m)) k) = None ->
          Obj.get (_config (this m')) k = Obj.get (_config (this m)) k).
Proof.
  intros D. rewrite read_environment_eq.
  destruct (@run_turns_dot_free
              (env_turns w (env_prefix (this m)) (Obj.keys (_config (this m))))
              m) as [m' [Run [Fr Val]]].
  { intros k v Hin. apply env_turns_pairs in Hin. apply D. tauto. }
  exists m'. split; [exact Run|]. split.
  - intros k s K E.
    assert (Hin : In (k, VStr s)
                     (flat_map pair_of
                        (env_turns w (env_prefix (this m))
                           (Obj.keys (_config (this m)))))).
    { apply env_turns_pairs. eauto. }
    assert (U : forall v',
               In (k, v')
                  (flat_map pair_of
                     (env_turns w (env_prefix (this m))
                        (Obj.keys (_config (this m))))) -> v' = VStr s).
    { intros v' H. apply env_turns_pairs in H.
      destruct H as [_ [s' [E' ->]]]. congruence. }
    split; [now apply Val | now apply (@run_turns_last_value _ _ _ _ _ Run)].
  - intros k E. apply Fr. intros Hin. apply in_map_fst_pairs in Hin.
    destruct Hin as [v Hin]. apply env_turns_pairs in Hin.
    destruct Hin as [_ [s [E' _]]]. congruence.
Qed.

(** ** Keys and settings along a run *)

Lemma same_settings_refl i : same_settings i i.
Proof. repeat split. Qed.

Lemma same_settings_trans i1 i2 i3 :
  same_settings i1 i2 -> same_settings i2 i3 -> same_settings i1 i3.
Proof. unfold same_settings. intuition congruence. Qed.

Lemma keys_set_present o k v :
  In k (Obj.keys o) -> Obj.keys (Obj.set o k v) = Obj.keys o.
Proof.
  intros H. apply has_in_keys in H. unfold Obj.set. rewrite H.
  apply keys_replace.
Qed.

(** With a cached view, turns on keys of the view keep its key list. *)
Lemma run_turns_keys_kept ts : forall m r m',
  run_turns ts m = (r, m') ->
  _flattened_config (this m) <> None ->
  (forall k v, In (k, v) (flat_map pair_of ts) ->
               In k (Obj.keys (flat_view (this m)))) ->
  Obj.keys (flat_view (this m')) = Obj.keys (flat_view (this m)).
Proof.
  induction ts as [|[calls [[k0 v0]|]] ts IH]; intros m r m' H C K;
    simpl in H.
  - now inversion H.
  - destruct (goes_through _ _); [|now inversion H].
    assert (E : Obj.keys (flat_view (this (after_set k0 v0 (log calls m))))
                = Obj.keys (flat_view (this m))).
    { unfold after_set, flat_view at 1; simpl.
      destruct (_flattened_config (this m)) as [f|] eqn:F; [|congruence].
      unfold flat_view. simpl. rewrite F.
      apply keys_set_present.
      specialize (K k0 v0). unfold flat_view in K. rewrite F in K.
      apply K. simpl. now left. }
    rewrite (IH _ _ _ H); [exact E | discriminate |].
    intros k v Hin. rewrite E. apply (K k v). simpl. now right.
  - apply (IH _ _ _ H); [exact C|]. exact K.
Qed.

(** With a cached view, no turn removes a key from it. *)
Lemma run_turns_keys_mono ts : forall m r m' k,
  run_turns ts m = (r, m') ->
  _flattened_config (this m) <> None ->
  In k (Obj.keys (flat_view (this m))) ->
  In k (Obj.keys (flat_view (this m'))).
Proof.
  induction ts as [|[calls [[k0 v0]|]] ts IH]; intros m r m' k H C K;
    simpl in H.
  - inversion H; subst; assumption.
  - destruct (goes_through _ _); [|inversion H; subst; assumption].
    apply (IH _ _ _ _ H); [discriminate|].
    unfold after_set, flat_view at 1; simpl. apply keys_set. left.
    unfold flat_view in *. simpl.
    destruct (_flattened_config (this m)); [exact K | congruence].
  - apply (IH _ _ _ _ H); [exact C | exact K].
Qed.

Lemma write_at_keys path : forall o key v s,
  In s (Obj.keys o) -> In s (Obj.keys (write_at o path key v)).
Proof.
  destruct path as [|p rest]; intros o key v s H; simpl.
  - apply keys_set. now left.
  - destruct (Obj.get o p) as [[| | |sub|]|]; try exact H.
    apply keys_set. now left.
Qed.

(** No turn removes a top-level name from the nested tree. *)
Lemma run_turns_top_keys ts : forall m r m' s,
  run_turns ts m = (r, m') ->
  In s (Obj.keys (_config (this m))) ->
  In s (Obj.keys (_config (this m'))).
Proof.
  induction ts as [|[calls [[k0 v0]|]] ts IH]; intros m r m' s H K;
    simpl in H.
  - inversion H; subst; assumption.
  - destruct (goes_through _ _); [|inversion H; subst; assumption].
    apply (IH _ _ _ _ H). unfold after_set; simpl. now apply write_at_keys.
  - apply (IH _ _ _ _ H). exact K.
Qed.

(** A run of turns either caches the view or leaves the instance as it
    was. *)
Lemma run_turns_cache_or_same ts : forall m r m',
  run_turns ts m = (r, m') ->
  _flattened_config (this m') <> None \/ this m' = this m.
Proof.
  induction ts as [|[calls [[k0 v0]|]] ts IH]; intros m r m' H; simpl in H.
  - inversion H. now right.
  - destruct (goes_through _ _).
    + left. apply run_turns_settings in H. apply H. discriminate.
    + inversion H. now right.
  - apply IH in H. exact H.
Qed.


(** Turns without a pair only make their host calls. *)
Lemma run_turns_no_pairs ts : forall m,
  flat_map pair_of ts = [] ->
  run_turns ts m = (Normal tt, log (flat_map fst ts) m).
Proof.
  induction ts as [|[calls [[k0 v0]|]] ts IH]; intros m N; simpl in *.
  - now rewrite log_nil.
  - discriminate.
  - rewrite IH by exact N. now rewrite log_log.
Qed.

(** The four steps of a [read] that returns. *)
Lemma read_steps w m ok m' :
  read w m = (Normal ok, m') ->
  exists m1 m2 m3,
    _read_config_file w m = (Normal tt, m1)
    /\ _read_environment w m1 = (Normal tt, m2)
    /\ _read_args w m2 = (Normal tt, m3)
    /\ m' = log (map unset_warning (unset_keys (flat_view (this m3))))
              (materialise m3)
    /\ ok = forallb (fun e => negb (is_empty_string (snd e)))
                    (flat_view (this m3)).
Proof.
  unfold read, bind.
  destruct (_read_config_file w m) as [[[]|e1] m1] eqn:E1; [|discriminate].
  destruct (_read_environment w m1) as [[[]|e2] m2] eqn:E2; [|discriminate].
  destruct (_read_args w m2) as [[[]|e3] m3] eqn:E3; [|discriminate].
  rewrite verify_config_eq. intros H. inversion H; subst.
  exists m1, m2, m3. auto.
Qed.

Lemma flat_view_materialise m evs :
  flat_view (this (log evs (materialise m))) = flat_view (this m).
Proof. reflexivity. Qed.

Lemma read_config_file_top_keys w m r m1 s :
  _read_config_file w m = (r, m1) ->
  In s (Obj.keys (_config (this m))) ->
  In s (Obj.keys (_config (this m1))).
Proof.
  destruct (yaml_readSync w (config_file_path (this m))) as [e| |doc] eqn:Y.
  - erewrite read_config_file_throws_eq by exact Y.
    intros H; inversion H; subst; auto.
  - erewrite read_config_file_undefined_eq by exact Y.
    intros H; inversion H; subst; auto.
  - erewrite read_config_file_eq by exact Y.
    destruct (run_turns _ _) as [[u|e] m0] eqn:Run; intros H K;
      inversion H; subst; simpl;
      apply (@run_turns_top_keys _ _ _ _ s Run); exact K.
Qed.

Lemma read_config_file_settings w m r m1 :
  _read_config_file w m = (r, m1) -> same_settings (this m) (this m1).
Proof.
  intros H. destruct (read_config_file_calls w m) as [m1' [evs [F [_ [_ S]]]]].
  rewrite F in H. inversion H; subst. exact S.
Qed.

(** ** The argument step and the keys of the flattened view *)

Lemma read_args_keys w m r m' :
  _read_args w m = (r, m') ->
  Obj.keys (flat_view (this m')) = Obj.keys (flat_view (this m))
  /\ same_settings (this m) (this m').
Proof.
  intros H. apply read_args_cases in H.
  destruct H as [[f [-> ->]]|[_ Run]]; [split; [reflexivity | repeat split]|].
  split.
  - rewrite (@run_turns_keys_kept _ _ _ _ Run); [reflexivity | discriminate |].
    intros k v Hin. apply arg_turns_pairs in Hin. apply Hin.
  - apply run_turns_settings in Run. apply Run.
Qed.

(** X8: the argument step neither adds a key to the flattened view nor
    removes one, whether it completes or throws: the view has the same
    keys in the same order afterwards, and none of the settings is
    written. *)
Theorem read_args_keeps_keys w m r m' :
  _read_args w m = (r, m') ->
  Obj.keys (flat_view (this m')) = Obj.keys (flat_view (this m))
  /\ same_settings (this m) (this m').
Proof.
  intros H. apply read_args_cases in H.
  destruct H as [[f [-> ->]]|[_ Run]]; [split; [reflexivity | repeat split]|].
  pose proof (run_turns_settings _ _ Run) as [S _]. split; [|exact S].
  apply (@run_turns_keys_kept _ _ _ _ Run); [discriminate|].
  intros k v Hin. apply arg_turns_pairs in Hin. apply Hin.
Qed.

(** ** Precedence, as [read] implements it *)

(** X9: arguments win.  After a [read] that returns, every key of the
    flattened view for which the argument vector has a value holds that
    value, whatever the file and the environment supplied. *)
Theorem read_argument_wins w m ok m' k s :
  read w m = (Normal ok, m') ->
  In k (Obj.keys (flat_view (this m'))) ->
  process_argv w (arg_flag k) = Some s ->
  Obj.get (flat_view (this m')) k = Some (VStr s).
Proof.
  intros H K A.
  destruct (read_steps _ _ H) as [m1 [m2 [m3 [F [E [Ar [-> _]]]]]]].
  rewrite flat_view_materialise in *.
  destruct (read_args_keys _ _ Ar) as [Keys _]. rewrite Keys in K.
  apply read_args_normal in Ar.
  apply (@run_turns_last_value _ _ _ k (VStr s) Ar).
  - apply arg_turns_pairs. eauto.
  - intros v' Hin. apply arg_turns_pairs in Hin.
    destruct Hin as [_ [s' [A' ->]]]. congruence.
Qed.

(** X10: the environment wins over the file for top-level names.  After
    a [read] that returns, a top-level property name of the nested tree
    whose variable is defined, and for which no argument is given, holds
    the variable's string in the flattened view, whatever the file
    supplied. *)
Theorem read_environment_wins_over_file w m ok m' k s :
  read w m = (Normal ok, m') ->
  In k (Obj.keys (_config (this m))) ->
  process_env w (env_name (env_prefix (this m)) k) = Some s ->
  process_argv w (arg_flag k) = None ->
  Obj.get (flat_view (this m')) k = Some (VStr s).
Proof.
  intros H K E A.
  destruct (read_steps _ _ H) as [m1 [m2 [m3 [F [En [Ar [-> _]]]]]]].
  rewrite flat_view_materialise.
  destruct (read_args_applies _ _ Ar) as [_ U]. rewrite (U k A).
  destruct (read_config_file_settings _ _ F) as [P _].
  pose proof (read_config_file_top_keys _ _ k F K) as K1.
  rewrite read_environment_eq in En. rewrite P in En.
  apply (@run_turns_last_value _ _ _ k (VStr s) En).
  - apply env_turns_pairs. eauto.
  - intros v' Hin. apply env_turns_pairs in Hin.
    destruct Hin as [_ [s' [E' ->]]]. congruence.
Qed.





Lemma read_config_file_cache_or_same w m r m1 :
  _read_config_file w m = (r, m1) ->
  _flattened_config (this m1) <> None \/ this m1 = this m.
Proof.
  destruct (yaml_readSync w (config_file_path (this m))) as [e| |doc] eqn:Y.
  - erewrite read_config_file_throws_eq by exact Y.
    intros H; inversion H; subst. now right.
  - erewrite read_config_file_undefined_eq by exact Y.
    intros H; inversion H; subst. now right.
  - erewrite read_config_file_eq by exact Y.
    destruct (run_turns _ _) as [[u|e] m0] eqn:Run; intros H;
      inversion H; subst; simpl;
      apply (@run_turns_cache_or_same _ _ _ _ Run).
Qed.

(** X12: a key no source has anything for keeps its value.  After a
    [read] that returns, a key for which no argument is given, whose
    variable is not defined and to which the file gives no non-empty
    value has in the flattened view the value it had before, provided the
    view was already cached or no key supplied by the file or the
    environment names a mapping node of the nested tree. *)
Theorem read_leaves_unsupplied_key w m ok m' k :
  read w m = (Normal ok, m') ->
  sections_safe m (fun k0 => file_supplies w m k0 \/ env_supplies w m k0) ->
  ~ file_supplies w m k ->
  process_env w (env_name (env_prefix (this m)) k) = None ->
  process_argv w (arg_flag k) = None ->
  untouched k m m'.
Proof.
  intros H S Fk E A.
  destruct (read_steps _ _ H) as [m1 [m2 [m3 [F [En [Ar [-> _]]]]]]].
  unfold untouched. rewrite flat_view_materialise.
  destruct (read_args_applies _ _ Ar) as [_ U]. rewrite (U k A).
  destruct (read_environment_applies _ _ En) as [_ Ue].
  destruct (read_config_file_applies _ _ F) as [_ [_ Uf]].
  destruct (read_config_file_settings _ _ F) as [Px _].
  rewrite Ue.
  - apply Uf; [|exact Fk].
    destruct S as [S|S]; [now left | right]. intros k0 K0. apply S. now left.
  - destruct (read_config_file_cache_or_same _ _ F) as [C|C]; [now left|].
    destruct S as [S|S]; [left; now rewrite C | right].
    intros k0 [K0 D0]. rewrite C in *. apply S. right. now split.
  - intros [_ D]. apply D. now rewrite Px.
Qed.

(** ** What [read] never writes, and what its result means *)

Lemma read_environment_settings w m r m2 :
  _read_environment w m = (r, m2) ->
  same_settings (this m) (this m2)
  /\ (_flattened_config (this m) <> None ->
      _flattened_config (this m2) <> None).
Proof. rewrite read_environment_eq. apply run_turns_settings. Qed.

(** X13: [read] writes none of the settings: the prefix, the help object
    and the file path are the same afterwards, whether [read] returns or
    throws. *)
Theorem read_keeps_settings w m r m' :
  read w m = (r, m') -> same_settings (this m) (this m').
Proof.
  unfold read, bind.
  destruct (_read_config_file w m) as [[[]|e1] m1] eqn:F.
  - pose proof (read_config_file_settings _ _ F) as S1.
    destruct (_read_environment w m1) as [[[]|e2] m2] eqn:E.
    + destruct (read_environment_settings _ _ E) as [S2 _].
      destruct (_read_args w m2) as [[[]|e3] m3] eqn:A.
      * destruct (read_args_keys _ _ A) as [_ S3].
        rewrite verify_config_eq. intros H. inversion H; subst.
        apply (same_settings_trans S1), (same_settings_trans S2).
        apply (same_settings_trans S3). repeat split.
      * destruct (read_args_keys _ _ A) as [_ S3].
        intros H. inversion H; subst.
        apply (same_settings_trans S1), (same_settings_trans S2), S3.
    + destruct (read_environment_settings _ _ E) as [S2 _].
      intros H. inversion H; subst. apply (same_settings_trans S1 S2).
  - intros H. inversion H; subst. apply (read_config_file_settings _ _ F).
Qed.

(** X14: what the result of [read] says about the store.  When [read]
    returns, its boolean is [true] exactly when no entry of the final
    flattened view is the empty string, and every key whose final value
    is the empty string has its warning in the journal. *)
Theorem read_result_reflects_view w m ok m' :
  read w m = (Normal ok, m') ->
  (ok = true <-> forall k, ~ In (k, unset) (flat_view (this m')))
  /\ forall k,
       In (k, unset) (flat_view (this m')) ->
       In (unset_warning k) (journal m').
Proof.
  intros H.
  destruct (read_steps _ _ H) as [m1 [m2 [m3 [_ [_ [_ [-> ->]]]]]]].
  rewrite flat_view_materialise. split.
  - rewrite unset_keys_nil. split.
    + intros N k Hin. apply in_unset_keys in Hin. now rewrite N in Hin.
    + intros N. destruct (unset_keys (flat_view (this m3))) as [|k ks] eqn:U;
        [reflexivity|].
      exfalso. apply (N k). apply in_unset_keys. rewrite U. now left.
  - intros k Hin. apply in_unset_keys in Hin.
    unfold log; simpl. apply in_or_app. right. now apply in_map.
Qed.

(** ** Sources that supply nothing *)

Lemma no_pairs (ps : list (string * value)) :
  (forall k v, ~ In (k, v) ps) -> ps = [].
Proof.
  destruct ps as [|[k v] ps]; [reflexivity|].
  intros H. exfalso. apply (H k v). now left.
Qed.

(** X15: when no source supplies anything (the file is unavailable,
    empty, or has empty strings only; no variable is defined; no argument
    is given) and the option strings of the keys of the flattened view do
    not collide, [read] returns, applies no pair, and leaves the nested
    tree and the flattened view as they were; its result is the
    verifier's verdict on the initial view. *)
Theorem read_without_values w m :
  (forall doc,
      yaml_readSync w (config_file_path (this m)) = ReadDocument doc ->
      file_pairs doc = []) ->
  (forall name, process_env w name = None) ->
  (forall option, process_argv w option = None) ->
  flag_clash (Obj.keys (flat_view (this m))) = None ->
  exists ok m',
    read w m = (Normal ok, m')
    /\ _config (this m') = _config (this m)
    /\ flat_view (this m') = flat_view (this m)
    /\ sets_of (journal m') = sets_of (journal m)
    /\ (ok = true <-> unset_keys (flat_view (this m)) = []).
Proof.
  intros Hf He Ha Hc.
  assert (F : exists evs,
             _read_config_file w m = (Normal tt, log evs m)
             /\ sets_of evs = []).
  { destruct (yaml_readSync w (config_file_path (this m))) as [e| |doc] eqn:Y.
    - erewrite read_config_file_throws_eq by exact Y. eauto.
    - erewrite read_config_file_undefined_eq by exact Y. eauto.
    - erewrite read_config_file_eq by exact Y.
      rewrite run_turns_no_pairs
        by (rewrite file_pairs_eq; now apply Hf).
      rewrite log_log, (silent_turns_no_calls (file_turns_silent doc)).
      eauto. }
  destruct F as [evs1 [F S1]].
  assert (E : _read_environment w (log evs1 m)
              = (Normal tt,
                 log (flat_map fst
                        (env_turns w (env_prefix (this m))
                           (Obj.keys (_config (this m)))))
                     (log evs1 m))).
  { rewrite read_environment_eq. apply run_turns_no_pairs.
    apply no_pairs. intros k v Hin. apply env_turns_pairs in Hin.
    destruct Hin as [_ [s [D _]]]. rewrite He in D. discriminate. }
  set (m2 := log _ (log evs1 m)) in E.
  assert (A : exists evs3,
             _read_args w m2 = (Normal tt, log evs3 (materialise m2))
             /\ sets_of evs3 = []).
  { rewrite read_args_eq.
    change (flat_view (this m2)) with (flat_view (this m)). rewrite Hc.
    rewrite run_turns_no_pairs.
    - rewrite log_log, (silent_turns_no_calls (arg_turns_silent _ _)).
      eauto.
    - apply no_pairs. intros k v Hin. apply arg_turns_pairs in Hin.
      destruct Hin as [_ [s [D _]]]. rewrite Ha in D. discriminate. }
  destruct A as [evs3 [A S3]].
  unfold read, bind. rewrite F, E, A, verify_config_eq.
  eexists. eexists. split; [reflexivity|].
  split; [reflexivity|]. split; [reflexivity|]. split.
  - unfold log, materialise, m2; simpl.
    rewrite !sets_of_app, S1, S3, env_turns_calls_eq.
    rewrite !app_nil_r.
    assert (G : forall ks, sets_of (map unset_warning ks) = [])
      by (induction ks; simpl; auto).
    rewrite G, app_nil_r.
    assert (G' : forall (g : string -> string) ks,
               sets_of (map (fun k => EvGetEnv (g k)) ks) = [])
      by (induction ks; simpl; auto).
    rewrite (G' (env_name (env_prefix (this m)))). now rewrite app_nil_r.
  - apply unset_keys_nil.
Qed.

(** ** Warnings of the file step *)

(** X16: the file step never throws and reports at most one warning.
    When [yaml.readSync] throws, the warning carries what was thrown and
    no pair is applied; when it yields [undefined], there is no warning
    and no pair; when it yields a mapping, the non-empty pairs of its
    flattened document are applied in order up to the first one that does
    not go through: if there is none, all are applied and there is no
    warning, and otherwise the one warning is the [TypeError] of that
    pair, whose intermediate segments do not resolve. *)
Theorem read_config_file_warns_at_most_once w m :
  exists m' evs,
    _read_config_file w m = (Normal tt, m')
    /\ journal m' = journal m ++ evs
    /\ match yaml_readSync w (config_file_path (this m)) with
       | ReadThrows e => warnings_of evs = [WarnExn e] /\ sets_of evs = []
       | ReadUndefined => warnings_of evs = [] /\ sets_of evs = []
       | ReadDocument doc =>
           exists applied rest,
             file_pairs doc = applied ++ rest
             /\ sets_of evs = applied
             /\ match rest with
                | [] => warnings_of evs = []
                | (k, _) :: _ =>
                    warnings_of evs = [WarnExn TypeError]
                    /\ resolves (_config (this m')) (intermediate k) = false
                end
       end.
Proof.
  destruct (yaml_readSync w (config_file_path (this m))) as [e| |doc] eqn:Y.
  - erewrite read_config_file_throws_eq by exact Y.
    eexists. eexists. split; [reflexivity|]. split; [reflexivity|].
    split; reflexivity.
  - erewrite read_config_file_undefined_eq by exact Y.
    eexists. eexists. split; [reflexivity|]. split; [reflexivity|].
    split; reflexivity.
  - destruct (@read_config_file_pairs _ _ _ Y)
      as [m' [evs [applied [rest [E [J [S [P [_ X]]]]]]]]].
    exists m', evs. split; [exact E|]. split; [exact J|].
    exists applied, rest. auto.
Qed.

(** ** The keys of the flattened view across [read] *)

Lemma read_config_file_keys_mono w m r m1 k :
  _read_config_file w m = (r, m1) ->
  _flattened_config (this m) <> None ->
  In k (Obj.keys (flat_view (this m))) ->
  In k (Obj.keys (flat_view (this m1)))
  /\ _flattened_config (this m1) <> None.
Proof.
  destruct (yaml_readSync w (config_file_path (this m))) as [e| |doc] eqn:Y.
  - erewrite read_config_file_throws_eq by exact Y.
    intros H; inversion H; subst; auto.
  - erewrite read_config_file_undefined_eq by exact Y.
    intros H; inversion H; subst; auto.
  - erewrite read_config_file_eq by exact Y.
    destruct (run_turns _ _) as [[u|e] m0] eqn:Run; intros H C K;
      inversion H; subst; simpl; split;
      try (apply (@run_turns_keys_mono _ _ _ _ k Run); assumption);
      apply (run_turns_settings _ _ Run); assumption.
Qed.

(** X17: once the flattened view is cached, [read] never removes a key
    from it, whether it returns or throws. *)
Theorem read_keeps_cached_keys w m r m' k :
  read w m = (r, m') ->
  _flattened_config (this m) <> None ->
  In k (Obj.keys (flat_view (this m))) ->
  In k (Obj.keys (flat_view (this m'))).
Proof.
  unfold read, bind.
  destruct (_read_config_file w m) as [[[]|e1] m1] eqn:F; intros H C K;
    destruct (read_config_file_keys_mono _ _ k F C K) as [K1 C1];
    [|inversion H; subst; exact K1].
  destruct (_read_environment w m1) as [[[]|e2] m2] eqn:E.
  - pose proof E as E'. rewrite read_environment_eq in E'.
    pose proof (@run_turns_keys_mono _ _ _ _ k E' C1 K1) as K2.
    destruct (_read_args w m2) as [[[]|e3] m3] eqn:A;
      destruct (read_args_keys _ _ A) as [Keys _].
    + rewrite verify_config_eq in H. inversion H; subst.
      rewrite flat_view_materialise, Keys. exact K2.
    + inversion H; subst. rewrite Keys. exact K2.
  - rewrite read_environment_eq in E. inversion H; subst.
    apply (@run_turns_keys_mono _ _ _ _ k E C1 K1).
Qed.

(** ** Resolving a key *)


(** ** New leaves *)

Lemma keys_insert_last o k v :
  Str.array_index k = None -> Obj.keys (Obj.insert o k v) = Obj.keys o ++ [k].
Proof.
  intros A. unfold Obj.keys.
  induction o as [|[k0 v0] o IH]; simpl; [reflexivity|].
  unfold Obj.comes_before. rewrite A. simpl. now rewrite IH.
Qed.

(** X19: [_set_option] does not check its key against the flattened
    view.  With a cached view, a set that goes through, of a key that is
    not the name of a property plain objects inherit, leaves the key with
    the value in the view.  It keeps the key list of the view when the key
    is already there; a new key goes into the list without changing the
    order of the others, and at the end of it unless it is an array
    index. *)
Theorem set_option_extends_view k v m m1 f :
  _flattened_config (this m) = Some f ->
  inherited OfObject k = None ->
  _set_option k v m = (Normal tt, m1) ->
  Obj.get (flat_view (this m1)) k = Some v
  /\ (In k (Obj.keys f) -> Obj.keys (flat_view (this m1)) = Obj.keys f)
  /\ (~ In k (Obj.keys f) ->
      (exists before after,
          Obj.keys f = before ++ after
          /\ Obj.keys (flat_view (this m1)) = before ++ k :: after)
      /\ (Str.array_index k = None ->
          Obj.keys (flat_view (this m1)) = Obj.keys f ++ [k])).
Proof.
  intros C _ H. apply set_option_normal in H. destruct H as [-> _].
  unfold after_set, flat_view; simpl. rewrite C. split; [|split].
  - apply get_set_same.
  - apply keys_set_present.
  - intros N.
    assert (Hh : Obj.has f k = false).
    { destruct (Obj.has f k) eqn:Hh; [|reflexivity].
      apply has_in_keys in Hh. contradiction. }
    unfold Obj.set. rewrite Hh. split.
    + destruct (insert_between f k v) as [before [after [E ->]]].
      exists (Obj.keys before), (Obj.keys after). unfold Obj.keys.
      rewrite E, !map_app. auto.
    + apply keys_insert_last.
Qed.

(** ** The verifier again *)

(** X20: the verifier changes no value: the nested tree and the
    flattened view are the same afterwards, and a second run gives the
    same verdict and reports the same warnings again. *)
Theorem verify_config_reads_only m ok m1 :
  _verify_config m = (Normal ok, m1) ->
  _config (this m1) = _config (this m)
  /\ flat_view (this m1) = flat_view (this m)
  /\ _verify_config m1
     = (Normal ok,
        log (map unset_warning (unset_keys (flat_view (this m)))) m1).
Proof.
  rewrite verify_config_eq. intros H. inversion H; subst.
  split; [reflexivity|]. split; [reflexivity|].
  rewrite verify_config_eq. reflexivity.
Qed.

(** ** Keys that can be set without touching a section *)

Lemma resolves_write_other path : forall o key v path',
  is_section (lookup_path o (path ++ [key])) = false ->
  resolves o path' = true ->
  resolves (write_at o path key v) path' = true.
Proof.
  induction path as [|p rest IH]; intros o key v path' T R.
  - destruct path' as [|p' rest']; [reflexivity|]. simpl in *.
    destruct (String.eqb_spec p' key) as [->|Hp].
    + destruct (Obj.get o key) as [[| | |sub|]|]; try discriminate.
    + rewrite get_set_other by assumption. exact R.
  - simpl in *. destruct (Obj.get o p) as [[| | |sub|]|] eqn:G; try exact R.
    destruct path' as [|p' rest']; [reflexivity|]. simpl in *.
    destruct (String.eqb_spec p' p) as [->|Hp].
    + rewrite get_set_same. rewrite G in R. now apply IH.
    + rewrite get_set_other by assumption. exact R.
Qed.

Lemma lookup_write_other path : forall o key v path',
  is_object v = false ->
  is_section (lookup_path (write_at o path key v) path') = true ->
  is_section (lookup_path o path') = true.
Proof.
  induction path as [|p rest IH]; intros o key v path' Hv T.
  - destruct path' as [|p' rest']; [reflexivity|]. simpl in *.
    destruct (String.eqb_spec p' key) as [->|Hp].
    + rewrite get_set_same in T.
      destruct v; try discriminate; destruct rest'; discriminate.
    + rewrite get_set_other in T by assumption. exact T.
  - simpl in *. destruct (Obj.get o p) as [[| | |sub|]|] eqn:G; try exact T.
    destruct path' as [|p' rest']; [reflexivity|]. simpl in *.
    destruct (String.eqb_spec p' p) as [->|Hp].
    + rewrite get_set_same in T. rewrite G. now apply IH in T.
    + rewrite get_set_other in T by assumption. exact T.
Qed.

Lemma settable_after_set k v m k' :
  is_object v = false ->
  settable (_config (this m)) k = true ->
  settable (_config (this m)) k' = true ->
  settable (_config (this (after_set k v m))) k' = true.
Proof.
  unfold settable, addresses_mapping. intros Hv S S'.
  apply andb_true_iff in S. destruct S as [R A].
  apply andb_true_iff in S'. destruct S' as [R' A'].
  destruct (split_path k) as [last [L [E _]]].
  unfold after_set; simpl. rewrite L, property_key_one.
  fold (intermediate k). apply andb_true_iff. split.
  - apply resolves_write_other; [|exact R'].
    rewrite <- E. apply negb_true_iff in A. exact A.
  - apply negb_true_iff. apply negb_true_iff in A'.
    destruct (is_section
                (lookup_path
                   (write_at (_config (this m)) (intermediate k) last v)
                   (Str.split "." k'))) eqn:T; [|exact T].
    apply lookup_write_other in T; [|exact Hv].
    unfold is_section in T. rewrite T in A'. discriminate.
Qed.

(** A run of turns on settable keys with scalar values never throws. *)
Lemma run_turns_settable ts : forall m,
  (forall k v, In (k, v) (flat_map pair_of ts) ->
               is_object v = false /\ settable (_config (this m)) k = true) ->
  exists m',
    run_turns ts m = (Normal tt, m')
    /\ forall k, settable (_config (this m)) k = true ->
                 settable (_config (this m')) k = true.
Proof.
  induction ts as [|[calls [[k0 v0]|]] ts IH]; intros m S; cbn [run_turns].
  - exists m. auto.
  - destruct (S k0 v0) as [Hv S0]; [simpl; now left|].
    pose proof S0 as S0'. unfold settable in S0'.
    apply andb_true_iff in S0'. destruct S0' as [R _].
    change (_config (this (log calls m))) with (_config (this m)).
    rewrite (resolves_goes_through _ _ R).
    destruct (IH (after_set k0 v0 (log calls m))) as [m' [Run Keep]].
    { intros k v Hin. destruct (S k v) as [Hv' Sk]; [simpl; now right|].
      split; [exact Hv'|].
      now apply (@settable_after_set k0 v0 (log calls m) k). }
    exists m'. split; [exact Run|]. intros k Sk. apply Keep.
    now apply (@settable_after_set k0 v0 (log calls m) k).
  - destruct (IH (log calls m)) as [m' [Run Keep]].
    { intros k v Hin. apply (S k v). exact Hin. }
    exists m'. split; [exact Run | exact Keep].
Qed.

(** ** What a reader leaves alone *)

(** A scalar written at a settable place changes the tree at that place
    only. *)
Lemma lookup_write_frame path : forall o key v path',
  is_object v = false ->
  resolves o path = true ->
  is_section (lookup_path o (path ++ [key])) = false ->
  path' <> path ++ [key] ->
  is_section (lookup_path o path') = false ->
  lookup_path (write_at o path key v) path' = lookup_path o path'.
Proof.
  induction path as [|p rest IH]; intros o key v path' Hv R T N T'.
  - destruct path' as [|p' rest']; [discriminate|]. simpl in *.
    destruct (String.eqb_spec p' key) as [->|Hp].
    + rewrite get_set_same.
      destruct rest' as [|q rest']; [congruence|].
      destruct (Obj.get o key) as [[| | |sub|]|]; try discriminate;
        destruct v; try discriminate; reflexivity.
    + now rewrite get_set_other.
  - simpl in *. destruct (Obj.get o p) as [[| | |sub|]|] eqn:G;
      try discriminate.
    destruct path' as [|p' rest']; [discriminate|]. simpl in *.
    destruct (String.eqb_spec p' p) as [->|Hp].
    + rewrite get_set_same. rewrite G in *.
      apply IH; try assumption. congruence.
    + now rewrite get_set_other.
Qed.

Lemma split_injective k k' : Str.split "." k = Str.split "." k' -> k = k'.
Proof.
  intros E. rewrite <- (join_split k), <- (join_split k'). now rewrite E.
Qed.

Lemma kept_refl k m : kept k m m.
Proof. split; reflexivity. Qed.

Lemma kept_trans k m1 m2 m3 : kept k m1 m2 -> kept k m2 m3 -> kept k m1 m3.
Proof.
  unfold kept, untouched. intros [F1 T1] [F2 T2].
  split; congruence.
Qed.

(** A set of a scalar at a key that names no section keeps every other
    key that names no section, in both views. *)
Lemma after_set_kept k v m k' :
  is_object v = false ->
  addresses_mapping (_config (this m)) k = false ->
  k' <> k ->
  addresses_mapping (_config (this m)) k' = false ->
  kept k' m (after_set k v m).
Proof.
  intros Hv A Hk A'. split.
  - apply after_set_frame; [exact Hk | right; now split].
  - unfold after_set; simpl. fold (intermediate k).
    destruct (resolves (_config (this m)) (intermediate k)) eqn:R;
      [|now rewrite write_at_unresolved].
    destruct (split_path k) as [last [L [E _]]].
    rewrite L, property_key_one.
    apply lookup_write_frame; try assumption.
    + rewrite <- E. exact A.
    + rewrite <- E. intros H. apply Hk. now apply split_injective.
Qed.

Lemma not_section_after_set k v m k' :
  is_object v = false ->
  addresses_mapping (_config (this m)) k' = false ->
  addresses_mapping (_config (this (after_set k v m))) k' = false.
Proof.
  intros Hv A'.
  destruct (addresses_mapping (_config (this (after_set k v m))) k') eqn:T;
    [|reflexivity].
  unfold after_set in T; simpl in T.
  apply (@lookup_write_other _ _ _ _ _ Hv) in T.
  unfold addresses_mapping, is_section in *. congruence.
Qed.

(** Along a run of turns that completes, with scalar values and keys
    that name no section, a key that gets no pair and names no section
    keeps its value in both views. *)
Lemma run_turns_kept ts : forall m m' k,
  run_turns ts m = (Normal tt, m') ->
  (forall k0 v0, In (k0, v0) (flat_map pair_of ts) ->
                 is_object v0 = false
                 /\ addresses_mapping (_config (this m)) k0 = false) ->
  ~ In k (map fst (flat_map pair_of ts)) ->
  addresses_mapping (_config (this m)) k = false ->
  kept k m m'.
Proof.
  induction ts as [|[calls [[k0 v0]|]] ts IH]; intros m m' k H S N A;
    simpl in H.
  - inversion H. apply kept_refl.
  - destruct (goes_through _ _); [|discriminate].
    destruct (S k0 v0) as [Hv0 S0]; [simpl; now left|].
    simpl in N.
    apply kept_trans with (m2 := after_set k0 v0 (log calls m)).
    + apply (@after_set_kept k0 v0 (log calls m) k); auto.
    + apply (IH _ _ _ H).
      * intros k1 v1 Hin. destruct (S k1 v1) as [Hv1 S1]; [simpl; now right|].
        split; [exact Hv1|].
        now apply (@not_section_after_set k0 v0 (log calls m) k1).
      * intros Hin. apply N. now right.
      * now apply (@not_section_after_set k0 v0 (log calls m) k).
  - apply (IH _ _ _ H); auto.
Qed.

Lemma turn_events_sets ts :
  Forall (fun t : turn => sets_of (fst t) = []) ts ->
  sets_of (flat_map turn_events ts) = flat_map pair_of ts.
Proof.
  induction 1 as [|[calls item] ts Hc F IH]; [reflexivity|].
  simpl in *. rewrite sets_of_app, IH. unfold turn_events; simpl.
  rewrite sets_of_app, Hc. unfold pair_of; simpl.
  destruct item as [[k v]|]; reflexivity.
Qed.

(** A run of turns is a run of some of its first turns that completes,
    followed by the host calls of the turn whose pair fails, if one
    does. *)
Lemma run_turns_prefix ts m r m' :
  run_turns ts m = (r, m') ->
  Forall (fun t : turn => sets_of (fst t) = []) ts ->
  exists done calls m0,
    run_turns done m = (Normal tt, m0)
    /\ m' = log calls m0
    /\ sets_of calls = []
    /\ incl (flat_map pair_of done) (flat_map pair_of ts)
    /\ Forall (fun t : turn => sets_of (fst t) = []) done.
Proof.
  intros H F. destruct r as [[]|e].
  - exists ts, [], m'. rewrite log_nil.
    repeat split; auto. apply incl_refl.
  - destruct (@run_turns_cut _ _ _ _ H)
      as [_ [done [calls [k [v [rest [m0 [T [D [-> _]]]]]]]]]].
    subst ts. apply Forall_app in F. destruct F as [Fd Fr].
    inversion Fr as [|t ts' Hc _]; subst. simpl in Hc.
    exists done, calls, m0. repeat split; auto.
    rewrite flat_map_app. apply incl_appl, incl_refl.
Qed.

(** What a reader does, from the run of turns in its middle. *)
Lemma reads_only_intro (Q : string -> value -> Prop) m m1 m0 m' ts r
      before after :
  flat_view (this m1) = flat_view (this m) ->
  _config (this m1) = _config (this m) ->
  journal m1 = journal m ++ before ->
  sets_of before = [] ->
  run_turns ts m1 = (r, m0) ->
  Forall (fun t : turn => sets_of (fst t) = []) ts ->
  (forall k v, In (k, v) (flat_map pair_of ts) ->
               Q k v /\ is_object v = false) ->
  this m' = this m0 ->
  journal m' = journal m0 ++ after ->
  sets_of after = [] ->
  reads_only Q m m'.
Proof.
  intros V C J Sb Run F P T J' Sa.
  destruct (@run_turns_prefix _ _ _ _ Run F)
    as [done [calls [m00 [D [-> [Sc [I Fd]]]]]]].
  pose proof (@run_turns_journal _ _ _ _ D) as Jd. simpl in Jd.
  exists (before ++ flat_map turn_events done ++ calls ++ after).
  assert (Sets : sets_of (before ++ flat_map turn_events done ++ calls
                          ++ after)
                 = flat_map pair_of done).
  { rewrite !sets_of_app, Sb, Sc, Sa, turn_events_sets by exact Fd.
    simpl. now rewrite !app_nil_r. }
  rewrite Sets. split; [|split].
  - rewrite J'. simpl. rewrite Jd, J. now rewrite <- !app_assoc.
  - intros k v Hin. apply (P k v). now apply I.
  - intros S k N A.
    assert (K : kept k m1 m00).
    { apply (@run_turns_kept _ _ _ k D).
      - intros k0 v0 Hin. split.
        + apply (P k0 v0). now apply I.
        + rewrite C. now apply (S k0 v0).
      - exact N.
      - now rewrite C. }
    destruct K as [Kf Kt]. unfold kept, untouched in *.
    rewrite T. simpl. rewrite Kf, Kt, V, C. split; reflexivity.
Qed.

(** C5 (as the code has it): every pair a reader applies comes from its
    own source.  The argument reader applies pairs only for keys of the
    flattened view it is given, and only where the argument vector has a
    value; the environment reader only where the variable of the key is
    defined; the file reader only the non-empty entries of the file's
    flattened document, whose keys it does not check against the schema.
    And when no key a reader applies names a mapping node of the nested
    tree, every key it applies no pair for, and that names no mapping
    node either, has afterwards the value it had, in the flattened view
    and in the nested tree. *)
Theorem readers_apply_their_source w m r m' :
  (_read_args w m = (r, m') ->
   reads_only
     (fun k v =>
        In k (Obj.keys (flat_view (this m)))
        /\ exists s, process_argv w (arg_flag k) = Some s /\ v = VStr s)
     m m')
  /\ (_read_environment w m = (r, m') ->
      reads_only
        (fun k v =>
           exists s,
             process_env w (env_name (env_prefix (this m)) k) = Some s
             /\ v = VStr s)
        m m')
  /\ (_read_config_file w m = (r, m') ->
      reads_only
        (fun k v =>
           exists doc,
             yaml_readSync w (config_file_path (this m)) = ReadDocument doc
             /\ In (k, v) (flatten doc) /\ v <> unset)
        m m').
Proof.
  split; [|split].
  - intros H. apply read_args_cases in H.
    destruct H as [[f [-> ->]]|[_ H]].
    + apply (@reads_only_intro _ m (materialise m) (materialise m)
               (materialise m) [] (Normal tt) [] []);
        try reflexivity; try (simpl; now rewrite app_nil_r).
      * constructor.
      * intros k v [].
    + eapply (@reads_only_intro _ m _ m' m' _ r _ []);
        [| | | | exact H | | | | |];
        try reflexivity; try (simpl; now rewrite app_nil_r).
      * apply arg_turns_calls.
      * intros k v Hin. apply arg_turns_pairs in Hin.
        destruct Hin as [K [s [A ->]]]. split; [|reflexivity]. eauto.
  - rewrite read_environment_eq. intros H.
    eapply (@reads_only_intro _ m m m' m' _ r [] []);
      [| | | | exact H | | | | |];
      try reflexivity; try (simpl; now rewrite app_nil_r).
    + apply env_turns_calls.
    + intros k v Hin. apply env_turns_pairs in Hin.
      destruct Hin as [_ [s [D ->]]]. split; [|reflexivity]. eauto.
  - destruct (yaml_readSync w (config_file_path (this m))) as [e| |doc] eqn:Y.
    + erewrite read_config_file_throws_eq by exact Y. intros H.
      inversion H; subst.
      apply (@reads_only_intro _ m m m _ [] (Normal tt) []
               [EvReadSync (config_file_path (this m)); EvWarn (WarnExn e)]);
        try reflexivity; try (simpl; now rewrite app_nil_r).
      * constructor.
      * intros k v [].
    + erewrite read_config_file_undefined_eq by exact Y. intros H.
      inversion H; subst.
      apply (@reads_only_intro _ m m m _ [] (Normal tt) []
               [EvReadSync (config_file_path (this m))]);
        try reflexivity; try (simpl; now rewrite app_nil_r).
      * constructor.
      * intros k v [].
    + erewrite read_config_file_eq by exact Y.
      destruct (run_turns _ _) as [r0 m0] eqn:Run. intros H.
      assert (P : forall k v,
                 In (k, v) (flat_map pair_of (file_turns doc)) ->
                 (exists doc0,
                     ReadDocument doc = ReadDocument doc0
                     /\ In (k, v) (flatten doc0) /\ v <> unset)
                 /\ is_object v = false).
      { intros k v Hin. apply file_turns_pairs in Hin.
        destruct Hin as [Hin E]. split.
        - exists doc. repeat split; auto. intros ->. discriminate.
        - eapply flatten_scalar. exact Hin. }
      destruct r0 as [u|e]; inversion H; subst.
      * eapply (@reads_only_intro _ m _ m' m' _ _ _ []);
          [| | | | exact Run | | exact P | | |];
          try reflexivity; try (simpl; now rewrite app_nil_r).
        apply file_turns_calls.
      * eapply (@reads_only_intro _ m _ m0 _ _ _ _ [EvWarn (WarnExn e)]);
          [| | | | exact Run | | exact P | | |];
          try reflexivity.
        apply file_turns_calls.
Qed.


(** X22: arguments for settable keys cannot make the argument step
    throw.  When the option strings of the keys of the flattened view do
    not collide, and every key of the view that has an argument is
    settable in the nested tree, the argument step completes, and each of
    these keys holds its argument in the flattened view afterwards. *)
Theorem read_args_applies_settable w m :
  flag_clash (Obj.keys (flat_view (this m))) = None ->
  (forall k, In k (Obj.keys (flat_view (this m))) ->
             process_argv w (arg_flag k) <> None ->
             settable (_config (this m)) k = true) ->
  exists m',
    _read_args w m = (Normal tt, m')
    /\ forall k s,
         In k (Obj.keys (flat_view (this m))) ->
         process_argv w (arg_flag k) = Some s ->
         Obj.get (flat_view (this m')) k = Some (VStr s).
Proof.
  intros Hc S. rewrite read_args_eq, Hc.
  destruct (@run_turns_settable
              (arg_turns w (Obj.keys (flat_view (this m))))
              (log [EvParseArgs
                      (map arg_flag (Obj.keys (flat_view (this m))))]
                   (materialise m)))
    as [m' [Run _]].
  { intros k v Hin. apply arg_turns_pairs in Hin.
    destruct Hin as [K [s [A ->]]]. split; [reflexivity|].
    apply (S k K). congruence. }
  exists m'. split; [exact Run|].
  intros k s K A. apply (@run_turns_last_value _ _ _ k (VStr s) Run).
  - apply arg_turns_pairs. eauto.
  - intros v' Hin. apply arg_turns_pairs in Hin.
    destruct Hin as [_ [s' [A' ->]]]. congruence.
Qed.

(** ** When a set goes through *)

(** X23: when the engine has no part in a set, the only thing
    [_set_option] depends on to go through is that the intermediate
    segments of the key resolve to mapping nodes: then it completes,
    whatever the last segment names (a leaf, a section, or nothing yet)
    and whatever the value is; otherwise it throws a [TypeError] and
    changes nothing.  And whatever the engine does, a set whose
    intermediate segments resolve goes through. *)
Theorem set_option_goes_through_iff k v m :
  (resolves (_config (this m)) (intermediate k) = true ->
   exists m1, _set_option k v m = (Normal tt, m1))
  /\ (engine_free (_config (this m)) k = true ->
      ((exists m1, _set_option k v m = (Normal tt, m1))
       <-> resolves (_config (this m)) (intermediate k) = true)
      /\ (resolves (_config (this m)) (intermediate k) = false ->
          _set_option k v m = (Throw TypeError, m))).
Proof.
  split.
  - intros R. rewrite (set_option_resolved _ _ _ R). eauto.
  - intros F. rewrite set_option_eq, goes_through_engine_free by exact F.
    destruct (resolves _ _); split; try split; try reflexivity;
      try discriminate; eauto.
    intros [m1 H]. discriminate.
Qed.

End Engine.

(** * Worked instances

    The properties above hold in every engine.  What follows evaluates
    them on example data, in the engine [Sample.engine]. *)

#[local] Existing Instance Sample.engine.

(** ** The claims on example data *)

(** C2, against the claim as stated: when the environment step throws,
    [read] stops there; the argument vector is never parsed and the
    verifier does not run. *)
Lemma read_stops_when_environment_step_throws :
  exists m',
    read Sample.dotted_env Sample.dotted_option = (Throw TypeError, m')
    /\ filter is_source_call (journal m')
       = [EvReadSync "./config.yaml"; EvGetEnv "APP_A_B"]
    /\ warnings_of (journal m') = [WarnExn (HostError "ENOENT")].
Proof.
  eexists. split; [vm_compute; reflexivity|]. split; reflexivity.
Qed.

(** C3, against the claim as stated: the value [_verify_config] returns
    does not determine the sequence of unset keys, so that sequence is not
    part of what is returned. *)
Lemma verify_config_returns_no_keys :
  ~ exists decode : bool -> list string,
      forall m, exists ok m',
        _verify_config m = (Normal ok, m')
        /\ decode ok = unset_keys (flat_view (this m)).
Proof.
  intros [decode H].
  destruct (H (boot (constructor [("a", unset)] "APP" [] "f")))
    as [ok1 [m1 [E1 D1]]].
  destruct (H (boot (constructor [("b", unset)] "APP" [] "f")))
    as [ok2 [m2 [E2 D2]]].
  vm_compute in E1, E2, D1, D2.
  inversion E1; inversion E2; subst. congruence.
Qed.

Lemma set_option_keeps_views_consistent_witness :
  exists m1 m2,
    _set_option "db.host" (VStr "localhost") Sample.fresh = (Normal tt, m1)
    /\ _set_option "db.user" (VStr "admin") m1 = (Normal tt, m2)
    /\ Obj.get (flat_view (this m1)) "db.host" = Some (VStr "localhost")
    /\ lookup_path (_config (this m1)) (Str.split "." "db.host")
       = Some (VStr "localhost")
    /\ consistent (this m2).
Proof.
  destruct (@set_option_keeps_views_consistent Sample.engine)
    as [Both [Keep _]].
  eexists. eexists.
  split; [vm_compute; reflexivity|].
  split; [vm_compute; reflexivity|].
  split; [|split].
  - apply (Both "db.host" (VStr "localhost") Sample.fresh);
      [reflexivity | vm_compute; reflexivity].
  - apply (Both "db.host" (VStr "localhost") Sample.fresh);
      [reflexivity | vm_compute; reflexivity].
  - apply (Keep Sample.fresh).
    + apply unmaterialised_consistent. reflexivity.
    + eapply set_run_step with (k := "db.host") (v := VStr "localhost");
        [reflexivity | reflexivity | reflexivity | vm_compute; reflexivity |].
      eapply set_run_step with (k := "db.user") (v := VStr "admin");
        [reflexivity | reflexivity | reflexivity | vm_compute; reflexivity |].
      apply set_run_done.
Defined.

(** C4, against the claim as stated: setting a key that names a mapping
    node replaces the whole section in the nested tree, while the
    flattened view keeps the keys of the leaves that were below it; and a
    set whose first segment is the inherited property [constructor] goes
    through, and leaves its key in the flattened view and nothing in the
    nested tree. *)
Lemma set_on_section_splits_views :
  (exists m1 m2,
      _set_option "db.host" (VStr "localhost") Sample.fresh = (Normal tt, m1)
      /\ _set_option "db" (VStr "x") m1 = (Normal tt, m2)
      /\ In "db.host" (Obj.keys (flat_view (this m2)))
      /\ ~ In "db.host" (leaf_paths (_config (this m2))))
  /\ exists m3,
       _set_option "constructor.x" (VNum 1) Sample.fresh = (Normal tt, m3)
       /\ Obj.get (flat_view (this m3)) "constructor.x" = Some (VNum 1)
       /\ lookup_path (_config (this m3)) (Str.split "." "constructor.x")
          = None
       /\ ~ In "constructor.x" (leaf_paths (_config (this m3))).
Proof.
  split.
  - eexists. eexists.
    split; [vm_compute; reflexivity|].
    split; [vm_compute; reflexivity|].
    split.
    + vm_compute. auto.
    + vm_compute. intros [H|[]]. discriminate.
  - eexists. split; [vm_compute; reflexivity|].
    split; [reflexivity|]. split; [reflexivity|].
    vm_compute. intros [H|[H|[]]]; discriminate.
Qed.

Lemma readers_apply_their_source_witness :
  kept "db.port" Sample.fresh
    (snd (_read_args Sample.host_argument Sample.fresh))
  /\ kept "db.host" Sample.fresh
       (snd (_read_environment Sample.nested_env Sample.fresh))
  /\ kept "db.host" Sample.fresh
       (snd (_read_config_file Sample.stray_file Sample.fresh)).
Proof.
  split; [|split].
  - destruct (@readers_apply_their_source Sample.engine Sample.host_argument
                Sample.fresh (Normal tt)
                (snd (_read_args Sample.host_argument Sample.fresh)))
      as [A _].
    destruct A as [evs [J [_ K]]]; [vm_compute; reflexivity|].
    vm_compute in J. subst evs. apply K.
    + intros k v [H|[]]. inversion H. reflexivity.
    + intros [H|[]]. discriminate.
    + reflexivity.
  - destruct (@readers_apply_their_source Sample.engine Sample.nested_env
                Sample.fresh (Normal tt)
                (snd (_read_environment Sample.nested_env Sample.fresh)))
      as [_ [E _]].
    destruct E as [evs [J [_ K]]]; [vm_compute; reflexivity|].
    vm_compute in J. subst evs. apply K.
    + intros k v [].
    + intros [].
    + reflexivity.
  - destruct (@readers_apply_their_source Sample.engine Sample.stray_file
                Sample.fresh (Normal tt)
                (snd (_read_config_file Sample.stray_file Sample.fresh)))
      as [_ [_ F]].
    destruct F as [evs [J [_ K]]]; [vm_compute; reflexivity|].
    vm_compute in J. subst evs. apply K.
    + intros k v [H|[]]. inversion H. reflexivity.
    + intros [H|[]]. discriminate.
    + reflexivity.
Defined.

(** C5, against the claim as stated: the file reader applies a pair
    whose key is not in the schema, and the key ends up in both views;
    and a pair it applies for the key [db], which names a section, takes
    away the value of [db.host], a key the file has nothing for. *)
Lemma file_reader_applies_unknown_key :
  (exists m',
      _read_config_file Sample.stray_file Sample.fresh = (Normal tt, m')
      /\ ~ In "verbose" (Obj.keys (flatten Sample.schema))
      /\ sets_of (journal m') = [("verbose", VBool true)]
      /\ Obj.get (flat_view (this m')) "verbose" = Some (VBool true)
      /\ Obj.get (_config (this m')) "verbose" = Some (VBool true))
  /\ exists m',
       _read_config_file More.section_file Sample.fresh = (Normal tt, m')
       /\ sets_of (journal m') = [("db", VStr "x")]
       /\ lookup_path (_config (this Sample.fresh)) (Str.split "." "db.host")
          = Some unset
       /\ lookup_path (_config (this m')) (Str.split "." "db.host") = None.
Proof.
  split.
  - eexists. split; [vm_compute; reflexivity|].
    split; [|repeat split].
    vm_compute. intros [H|[H|[]]]; discriminate.
  - eexists. split; [vm_compute; reflexivity|]. repeat split.
Qed.

Lemma read_config_file_unavailable_witness :
  exists m' evs,
    _read_config_file Sample.bare Sample.fresh = (Normal tt, m')
    /\ this m' = this Sample.fresh
    /\ journal m' = journal Sample.fresh ++ evs
    /\ sets_of evs = []
    /\ warnings_of evs = [WarnExn (HostError "ENOENT")].
Proof.
  apply (@read_config_file_unavailable Sample.engine Sample.bare Sample.fresh
           (HostError "ENOENT")).
  reflexivity.
Defined.



Lemma set_option_unresolved_path_fails_witness :
  resolves (_config (this Sample.fresh)) (intermediate "cache.ttl.unit") = false
  /\ engine_free (_config (this Sample.fresh)) "cache.ttl.unit" = true
  /\ _set_option "cache.ttl.unit" (VStr "s") Sample.fresh
     = (Throw TypeError, Sample.fresh).
Proof.
  split; [reflexivity|]. split; [reflexivity|].
  apply (@set_option_unresolved_path_fails Sample.engine "cache.ttl.unit"
           (VStr "s") Sample.fresh); reflexivity.
Defined.

(** C8, against the claim as stated: the first segment of
    [constructor.x] is not a property of the configuration, so the
    intermediate segments do not resolve to mapping nodes; yet the lookup
    finds the inherited [constructor], the built-in [Object], which takes
    the write.  The set goes through: the nested tree is as it was, and
    the flattened view has the new key. *)
Lemma set_option_through_inherited_property :
  resolves (_config (this Sample.fresh)) (intermediate "constructor.x") = false
  /\ get_prop (VObj (_config (this Sample.fresh))) "constructor"
     = Some (VEngine "Object")
  /\ exists m1,
       _set_option "constructor.x" (VNum 1) Sample.fresh = (Normal tt, m1)
       /\ _config (this m1) = _config (this Sample.fresh)
       /\ Obj.get (flat_view (this m1)) "constructor.x" = Some (VNum 1).
Proof.
  split; [reflexivity|]. split; [reflexivity|].
  eexists. split; [vm_compute; reflexivity|]. split; reflexivity.
Qed.

Lemma read_environment_misses_nested_key_witness :
  exists evs,
    journal (snd (_read_environment Sample.nested_env Sample.fresh))
    = journal Sample.fresh ++ evs
    /\ filter is_source_call evs = [EvGetEnv "APP_DB"].
Proof.
  destruct read_environment_misses_nested_key as [G _].
  apply (G Sample.nested_env Sample.fresh tt
           (snd (_read_environment Sample.nested_env Sample.fresh))).
  vm_compute. reflexivity.
Defined.

Lemma read_config_file_undefined_witness :
  _read_config_file Sample.empty_file Sample.fresh =
  (Normal tt,
   {| this := this Sample.fresh;
      journal := [EvReadSync "./config.yaml"] |}).
Proof.
  apply (@read_config_file_undefined Sample.engine
           Sample.empty_file Sample.fresh).
  reflexivity.
Defined.

(** ** The further properties on example data *)

Lemma set_option_last_write_wins_witness :
  exists m2,
    _set_option "db.host" (VStr "b")
      (snd (_set_option "db.host" (VStr "a") Sample.fresh))
    = (Normal tt, m2)
    /\ Obj.get (flat_view (this m2)) "db.host" = Some (VStr "b")
    /\ lookup_path (_config (this m2)) (Str.split "." "db.host")
       = Some (VStr "b")
    /\ _config (this m2)
       = _config (this (after_set "db.host" (VStr "b") Sample.fresh)).
Proof.
  apply (@set_option_last_write_wins Sample.engine "db.host" (VStr "a")
           (VStr "b") Sample.fresh).
  - reflexivity.
  - vm_compute. reflexivity.
Defined.


Lemma set_option_frame_witness :
  Obj.get (_config (this (snd (_set_option "db.host" (VStr "a")
                                 (swap_config Sample.fresh
                                    (("name", unset) :: Sample.schema))))))
          "name"
  = Some unset.
Proof.
  destruct (@set_option_frame Sample.engine "db.host" (VStr "a")
              (swap_config Sample.fresh (("name", unset) :: Sample.schema))
              (snd (_set_option "db.host" (VStr "a")
                      (swap_config Sample.fresh
                         (("name", unset) :: Sample.schema)))))
    as [T _]; [vm_compute; reflexivity|].
  rewrite (T "name"); [reflexivity | vm_compute; discriminate].
Defined.

Lemma read_environment_top_level_witness :
  exists m',
    _read_environment More.section_env Sample.fresh = (Normal tt, m')
    /\ Obj.get (_config (this m')) "db" = Some unset
    /\ Obj.get (flat_view (this m')) "db" = Some unset.
Proof.
  destruct (@read_environment_top_level Sample.engine
             More.section_env Sample.fresh)
    as [m' [E [V _]]].
  - intros k [<-|[]]. reflexivity.
  - exists m'. split; [exact E|]. apply (V "db" ""); [now left | reflexivity].
Defined.

Lemma read_args_keeps_keys_witness :
  Obj.keys (flat_view (this (snd (_read_args Sample.host_argument
                                    Sample.fresh))))
  = ["db.host"; "db.port"].
Proof.
  destruct (@read_args_keeps_keys Sample.engine
             Sample.host_argument Sample.fresh
              (Normal tt)
              (snd (_read_args Sample.host_argument Sample.fresh)))
    as [K _]; [vm_compute; reflexivity|].
  rewrite K. reflexivity.
Defined.

Lemma read_argument_wins_witness :
  Obj.get (flat_view (this (snd (read More.all_sources More.flat_schema))))
          "host"
  = Some (VStr "arg").
Proof.
  apply (@read_argument_wins Sample.engine
           More.all_sources More.flat_schema true).
  - vm_compute. reflexivity.
  - vm_compute. auto.
  - reflexivity.
Defined.

Lemma read_environment_wins_over_file_witness :
  Obj.get (flat_view (this (snd (read More.file_and_env More.flat_schema))))
          "host"
  = Some (VStr "env").
Proof.
  apply (@read_environment_wins_over_file Sample.engine
           More.file_and_env More.flat_schema
           true).
  - vm_compute. reflexivity.
  - vm_compute. auto.
  - reflexivity.
  - reflexivity.
Defined.


Lemma read_leaves_unsupplied_key_witness :
  untouched "db.port" Sample.fresh
    (snd (read Sample.host_argument Sample.fresh)).
Proof.
  apply (@read_leaves_unsupplied_key Sample.engine
           Sample.host_argument Sample.fresh false).
  - vm_compute. reflexivity.
  - right. intros k [[doc [v [Y _]]]|[[<-|[]] D]].
    + discriminate.
    + exfalso. apply D. reflexivity.
  - intros [doc [v [Y _]]]. discriminate.
  - reflexivity.
  - reflexivity.
Defined.

Lemma read_keeps_settings_witness :
  same_settings (this Sample.dotted_option)
    (this (snd (read Sample.dotted_env Sample.dotted_option))).
Proof.
  apply (@read_keeps_settings Sample.engine
           Sample.dotted_env Sample.dotted_option
           (Throw TypeError)).
  vm_compute. reflexivity.
Defined.

Lemma read_result_reflects_view_witness :
  In (unset_warning "db.host")
     (journal (snd (read Sample.nested_env Sample.fresh))).
Proof.
  destruct (@read_result_reflects_view Sample.engine
             Sample.nested_env Sample.fresh false
              (snd (read Sample.nested_env Sample.fresh))) as [_ W];
    [vm_compute; reflexivity|].
  apply W. vm_compute. auto.
Defined.

Lemma read_without_values_witness :
  exists ok m',
    read Sample.bare Sample.fresh = (Normal ok, m')
    /\ _config (this m') = Sample.schema
    /\ flat_view (this m') = flatten Sample.schema.
Proof.
  destruct (@read_without_values Sample.engine Sample.bare Sample.fresh)
    as [ok [m' [R [C [V _]]]]].
  - intros doc Y. discriminate.
  - reflexivity.
  - reflexivity.
  - reflexivity.
  - exists ok, m'. split; [exact R|]. split; [exact C | exact V].
Defined.

Lemma read_keeps_cached_keys_witness :
  In "db.host"
     (Obj.keys (flat_view
                  (this (snd (read More.section_env
                                (materialise Sample.fresh)))))).
Proof.
  apply (@read_keeps_cached_keys Sample.engine
           More.section_env (materialise Sample.fresh)
           (Normal false)).
  - vm_compute. reflexivity.
  - discriminate.
  - vm_compute. auto.
Defined.


Lemma set_option_extends_view_witness :
  Obj.keys (flat_view
              (this (snd (_set_option "db.user" (VStr "admin")
                            (materialise Sample.fresh)))))
  = ["db.host"; "db.port"; "db.user"].
Proof.
  destruct (@set_option_extends_view Sample.engine "db.user" (VStr "admin")
              (materialise Sample.fresh)
              (snd (_set_option "db.user" (VStr "admin")
                      (materialise Sample.fresh)))
              (flatten Sample.schema))
    as [_ [_ N]];
    [reflexivity | reflexivity | vm_compute; reflexivity |].
  destruct N as [_ N].
  - vm_compute. intros [H|[H|[]]]; discriminate.
  - rewrite N; reflexivity.
Defined.

Lemma verify_config_reads_only_witness :
  _config (this (snd (_verify_config Sample.fresh))) = Sample.schema.
Proof.
  destruct (@verify_config_reads_only Sample.fresh false
              (snd (_verify_config Sample.fresh))) as [C _];
    [vm_compute; reflexivity|].
  exact C.
Defined.


Lemma read_args_applies_settable_witness :
  exists m',
    _read_args Sample.host_argument Sample.fresh = (Normal tt, m')
    /\ Obj.get (flat_view (this m')) "db.host" = Some (VStr "example.org").
Proof.
  destruct (@read_args_applies_settable Sample.engine Sample.host_argument
              Sample.fresh)
    as [m' [E V]].
  - reflexivity.
  - intros k [<-|[<-|[]]] A.
    + reflexivity.
    + exfalso. apply A. reflexivity.
  - exists m'. split; [exact E|].
    apply V; [vm_compute; auto | reflexivity].
Defined.

Lemma set_option_goes_through_iff_witness :
  (exists m1, _set_option "db" (VNum 0) Sample.fresh = (Normal tt, m1))
  /\ _set_option "cache.ttl" (VNum 0) Sample.fresh
     = (Throw TypeError, Sample.fresh).
Proof.
  split.
  - destruct (@set_option_goes_through_iff Sample.engine "db" (VNum 0)
                Sample.fresh) as [G _].
    apply G. reflexivity.
  - destruct (@set_option_goes_through_iff Sample.engine "cache.ttl" (VNum 0)
                Sample.fresh) as [_ G].
    destruct G as [_ T]; [reflexivity|]. apply T. reflexivity.
Defined.

Lemma derived_names_collapse_witness :
  env_name "APP" "db_host" = env_name "APP" "db.host"
  /\ env_name "APP" "DB.HOST" = env_name "APP" "db.host"
  /\ arg_flag "db_host" = arg_flag "db.host".
Proof.
  destruct (@derived_names_collapse Sample.engine "APP" "db.host")
    as [E [_ [F U]]].
  destruct (U eq_refl) as [_ C].
  split; [exact E|]. split; [exact C | exact F].
Defined.

Lemma read_args_refuses_shared_flag_witness :
  exists f,
    _read_args Sample.bare More.shared_flag
    = (Throw (ArgumentError f), materialise More.shared_flag).
Proof.
  apply (@read_args_refuses_shared_flag Sample.engine Sample.bare
           More.shared_flag).
  right. exists "a.b", "a_b".
  split; [vm_compute; auto|]. split; [vm_compute; auto|].
  split; [discriminate | reflexivity].
Defined.

(** ** Worked examples *)

Example split_example : Str.split "." "db.host" = ["db"; "host"].
Proof. reflexivity. Qed.

Example split_empty : Str.split "." "" = [""].
Proof. reflexivity. Qed.

Example flatten_schema :
  flatten Sample.schema = [("db.host", unset); ("db.port", unset)].
Proof. reflexivity. Qed.

Example env_name_example : env_name "APP" "db.host" = "APP_DB_HOST".
Proof. reflexivity. Qed.

Example string_own_properties :
  get_prop (VStr "ab") "1" = Some (VStr "b")
  /\ get_prop (VStr "ab") "01" = None
  /\ get_prop (VStr "ab") "length" = Some (VNum 2)
  /\ get_prop (VStr "ab") "host" = None.
Proof. repeat split. Qed.

(** Nothing is supplied: both options are reported, [read] is [false]. *)
Example read_bare :
  exists m',
    read Sample.bare Sample.fresh = (Normal false, m')
    /\ warnings_of (journal m')
       = [WarnExn (HostError "ENOENT");
          WarnText "db.host is empty."; WarnText "db.port is empty."].
Proof. eexists. split; [vm_compute; reflexivity | reflexivity]. Qed.

(** An argument wins over the file. *)
Example read_argument_over_file :
  exists m',
    read {| yaml_readSync :=
              fun _ => ReadDocument
                         [("db", VObj [("host", VStr "file.example");
                                       ("port", VNum 5432)])];
            process_env := Sample.nothing;
            process_argv := Sample.only "--db_host" "arg.example" |}
         Sample.fresh
    = (Normal true, m')
    /\ flat_view (this m')
       = [("db.host", VStr "arg.example"); ("db.port", VNum 5432)]
    /\ _config (this m')
       = [("db", VObj [("host", VStr "arg.example"); ("port", VNum 5432)])].
Proof. eexists. split; [vm_compute; reflexivity | split; reflexivity]. Qed.

(** What the engine has for a plain object and for a string. *)
Example inherited_properties :
  get_prop (VObj Sample.schema) "db"
  = Some (VObj [("host", unset); ("port", unset)])
  /\ get_prop (VObj Sample.schema) "constructor" = Some (VEngine "Object")
  /\ get_prop (VObj Sample.schema) "cache" = None
  /\ get_prop (VStr "ab") "constructor" = Some (VEngine "String")
  /\ takes_write (VEngine "Object") "x" = true
  /\ takes_write (VStr "ab") "x" = false
  /\ takes_write (VStr "ab") "length" = false.
Proof. repeat split. Qed.

(** A new property whose name is an array index goes before the
    others. *)
Example array_index_first :
  Obj.keys (Obj.set (Obj.set [("name", unset)] "10" unset) "2" unset)
  = ["2"; "10"; "name"]
  /\ Obj.keys (Obj.set (Obj.set [("name", unset)] "10" unset) "02" unset)
     = ["10"; "name"; "02"].
Proof. split; reflexivity. Qed.

(** Two keys with the same option string: [read] throws. *)
Example read_shared_flag :
  exists m',
    read Sample.bare More.shared_flag = (Throw (ArgumentError "--a_b"), m')
    /\ filter is_source_call (journal m')
       = [EvReadSync "./config.yaml"; EvGetEnv "APP_A"; EvGetEnv "APP_A_B"].
Proof. eexists. split; [vm_compute; reflexivity | reflexivity]. Qed.
